(** * gitcli: the git subprocess gateway of gitserver

    A shallow embedding of [cmd/gitserver/internal/git/gitcli/command.go]
    (package [gitcli]): the typed-argument command builder, the launch step,
    the streaming reader with its wait-once guard, the bounded stderr capture,
    the corruption heuristic and the sampling and resource-usage helpers.

    Conventions.
    - A Go [string] is a Rocq [string] (a sequence of bytes); a [[]byte] is a
      [list byte].  Go [int], [int64] and [uint] values are [Z]; the only
      arithmetic that can leave the machine range is written with [wrap64].
    - A Go [error] is a value of [error]; the nil error is [None].
    - Effects (process launch, OS wait, logging, config writes, tracing) are
      recorded in an event log threaded through the state monad [M].  What the
      operating system and the other packages answer is read from [env]. *)

From Stdlib Require Import ZArith List String Ascii Bool Lia DecimalString.
From Stdlib Require Import Strings.Byte.
Import ListNotations.

Local Open Scope Z_scope.
Local Open Scope list_scope.

(* ================================================================= *)
(** ** Errors *)

(** [context.Canceled] and [context.DeadlineExceeded]. *)
Inductive ctxError : Type :=
| Canceled
| DeadlineExceeded.

(** The error values that flow through the package.  [CommandFailedError]
    is the struct of the same name; [ErrRepoCorrupted] is
    [common.ErrRepoCorrupted], built here with its [Reason] field only;
    [ErrWrap] is [errors.Wrap cause msg]; [ErrExit] is the [*exec.ExitError]
    that [Wait] returns for a non-zero exit status. *)
Inductive error : Type :=
| ErrEOF
| ErrContext (e : ctxError)
| ErrExit (status : Z)
| ErrOS (msg : string)
| ErrUnsafeSpec (spec : string)
| ErrUnknownArgumentType (dynType : string)
| ErrWrap (cause : error) (msg : string)
| ErrRepoCorrupted (Reason : string)
| CommandFailedError (Stderr : list byte) (ExitStatus : Z)
                     (Inner : error) (args : list string).

(** [func (e *CommandFailedError) Unwrap() error], together with the
    [Unwrap] of a wrapped error.  The remaining error values have no cause
    to hand back. *)
Definition Unwrap (e : error) : option error :=
  match e with
  | CommandFailedError _ _ inner _ => Some inner
  | ErrWrap cause _ => Some cause
  | _ => None
  end.

(** The chain that repeated unwrapping walks ([errors.Is], [errors.As]):
    the error itself first, then its cause, and so on. *)
Fixpoint chain (e : error) : list error :=
  e :: match e with
       | CommandFailedError _ _ inner _ => chain inner
       | ErrWrap cause _ => chain cause
       | _ => []
       end.

(* ================================================================= *)
(** ** Argument model and command builder *)

(** The dynamic type of an [Argument] interface value.  The four struct
    types are the ones the type switch of [argsFromArguments] lists;
    [OtherArgument] stands for every other dynamic type the interface can
    hold (a nil interface, a pointer to one of the structs), named by what
    [%T] prints for it. *)
Inductive Argument : Type :=
| FlagArgument (s : string)
| SpecSafeValueArgument (s : string)
| ValueFlagArgument (Flag Value : string)
| ConfigArgument (Key Value : string)
| OtherArgument (dynType : string).

(** Modelled from the spec: [checkSpecArgSafety] is declared in another file
    of package [gitcli] that is not part of the sources at hand.  The spec
    (4.1, Validation): a SpecSafeValue that starts with [-] is rejected; the
    comment on [SpecSafeValueArgument] says the same of the code. *)
Definition checkSpecArgSafety (spec : string) : option error :=
  if String.prefix "-" spec then Some (ErrUnsafeSpec spec) else None.

(** The loop of [argsFromArguments] over [args], with its two accumulators
    [configFlags] and [flags]; an error leaves the loop at once. *)
Fixpoint argsLoop (args : list Argument) (configFlags flags : list string)
  : error + (list string * list string) :=
  match args with
  | [] => inr (configFlags, flags)
  | arg :: rest =>
      match arg with
      | FlagArgument s => argsLoop rest configFlags (flags ++ [s])
      | SpecSafeValueArgument s =>
          match checkSpecArgSafety s with
          | Some err => inl err
          | None => argsLoop rest configFlags (flags ++ [s])
          end
      | ValueFlagArgument f v =>
          argsLoop rest configFlags (flags ++ [(f ++ "=" ++ v)%string])
      | ConfigArgument k v =>
          argsLoop rest (configFlags ++ ["-c"%string; (k ++ "=" ++ v)%string]) flags
      | OtherArgument ty => inl (ErrUnknownArgumentType ty)
      end
  end.

(** [func (g *gitCLIBackend) argsFromArguments(subcommand, args)]:
    git [config flags] subcommand [flags]. *)
Definition argsFromArguments (subcommand : string) (args : list Argument)
  : error + list string :=
  match argsLoop args [] [] with
  | inl err => inl err
  | inr (configFlags, flags) => inr (configFlags ++ [subcommand] ++ flags)
  end.

(* ================================================================= *)
(** ** Corruption heuristic *)

(** The fragment of regular expressions the two patterns are written in.
    [BeginLine] is [^]: the patterns are compiled with [NewPOSIX], and in
    POSIX syntax (no one-line flag) [^] matches at the beginning of the text
    and after every newline. *)
Inductive regex : Type :=
| Eps
| Chr (c : ascii)
| BeginLine
| Cat (r1 r2 : regex)
| Alt (r1 r2 : regex).

Fixpoint lit (s : string) : regex :=
  match s with
  | EmptyString => Eps
  | String c s' => Cat (Chr c) (lit s')
  end.

Definition newline : ascii := "010"%char.

(** A position in the text: the byte before it (if any) and the rest. *)
Definition pos : Type := (option ascii * string)%type.

(** All positions at which a match of [r] that starts at [p] can end. *)
Fixpoint rmatch (r : regex) (p : pos) : list pos :=
  match r with
  | Eps => [p]
  | Chr c =>
      match snd p with
      | String c' s' => if Ascii.eqb c c' then [(Some c', s')] else []
      | EmptyString => []
      end
  | BeginLine =>
      match fst p with
      | None => [p]
      | Some c => if Ascii.eqb c newline then [p] else []
      end
  | Cat r1 r2 => flat_map (rmatch r2) (rmatch r1 p)
  | Alt r1 r2 => rmatch r1 p ++ rmatch r2 p
  end.

Definition matchesAt (r : regex) (p : pos) : bool :=
  match rmatch r p with
  | [] => false
  | _ :: _ => true
  end.

(** The unanchored search of [MatchString]: try every start position. *)
Fixpoint search (r : regex) (prev : option ascii) (s : string) : bool :=
  matchesAt r (prev, s)
  || match s with
     | EmptyString => false
     | String c s' => search r (Some c) s'
     end.

Definition MatchString (r : regex) (s : string) : bool := search r None s.

(** [^error: (Could not read|packfile) ] *)
Definition objectOrPackFileCorruptionRegex : regex :=
  Cat BeginLine
      (Cat (lit "error: ")
           (Cat (Alt (lit "Could not read") (lit "packfile")) (lit " "))).

(** [^fatal: commit-graph requires overflow generation data but has none] *)
Definition commitGraphCorruptionRegex : regex :=
  Cat BeginLine
      (lit "fatal: commit-graph requires overflow generation data but has none").

(** [func stdErrIndicatesCorruption(stderr string) bool] *)
Definition stdErrIndicatesCorruption (stderr : string) : bool :=
  MatchString objectOrPackFileCorruptionRegex stderr
  || MatchString commitGraphCorruptionRegex stderr.

(* ================================================================= *)
(** ** Bounded stderr capture *)

Definition len {A : Type} (p : list A) : Z := Z.of_nat (List.length p).

(** [io.Writer]: [Write(p) (n int, err error)], as a step on the writer's
    state. *)
Class Writer (X : Type) : Type :=
  Write : X -> list byte -> (Z * option error) * X.

(** [bytes.Buffer], by its contents.  Its [Write] appends all of [p] and
    returns [len(p), nil]. *)
Definition Buffer : Type := list byte.

#[export] Instance Buffer_Writer : Writer Buffer :=
  fun b p => ((len p, None), b ++ p).

Definition maxStderrCapture : Z := 1024.

Module limitWriter.

(** [type limitWriter struct { W io.Writer; N int }]: the underlying writer
    and the number of bytes that may still be written to it. *)
Record t (X : Type) : Type := mk { W : X; N : Z }.
Arguments mk {X} _ _.
Arguments W {X} _.
Arguments N {X} _.

(** [func (l *limitWriter) Write(p []byte) (int, error)] *)
Definition Write {X : Type} `{Writer X} (l : t X) (p : list byte)
  : (Z * option error) * t X :=
  if N l <=? 0 then ((len p, None), l)
  else
    let origLen := len p in
    let p := if len p >? N l then firstn (Z.to_nat (N l)) p else p in
    let '((n, err), w) := Write (W l) p in
    let N' := N l - n in
    let n := if N' <=? 0 then origLen else n in
    ((n, err), mk w N').

End limitWriter.

#[export] Instance limitWriter_Writer {X : Type} `{Writer X}
  : Writer (limitWriter.t X) := limitWriter.Write.

(** [func stderrBuffer() (io.Writer, *bytes.Buffer)]: the limit writer and
    the buffer it writes to.  The buffer is shared by the two results, so the
    model returns the writer alone and reads the buffer as its field [W]. *)
Definition stderrBuffer : limitWriter.t Buffer :=
  limitWriter.mk ([] : Buffer) maxStderrCapture.

(** A sequence of writes, each with what it returned. *)
Fixpoint writeAll {X : Type} `{Writer X} (x : X) (ps : list (list byte))
  : list (Z * option error) * X :=
  match ps with
  | [] => ([], x)
  | p :: rest =>
      let '(r, x1) := Write x p in
      let '(rs, x2) := writeAll x1 rest in
      (r :: rs, x2)
  end.

(* ================================================================= *)
(** ** Resource usage and sampling *)

(** Go's [int64] arithmetic: the result of an operation, wrapped. *)
Definition wrap64 (z : Z) : Z := (z + 2 ^ 63) mod 2 ^ 64 - 2 ^ 63.

(** Modelled from the spec: package [internal/bytesize] is not part of the
    sources at hand.  [bytesize.Bytes] is a count of bytes; the spec (4.5,
    Resource accounting) names the two units the code converts between, bytes
    and kibibytes, and a kibibyte is 1024 bytes. *)
Module bytesize.
Definition B : Z := 1.
Definition KiB : Z := 1024.
End bytesize.

(** [func rssToByteSize(rss int64) bytesize.Bytes], with [runtime.GOOS]
    as a parameter. *)
Definition rssToByteSize (GOOS : string) (rss : Z) : Z :=
  if String.eqb GOOS "darwin" then wrap64 (rss * bytesize.B)
  else wrap64 (rss * bytesize.KiB).

(** [actor.Actor], by the two fields this package reads. *)
Record Actor : Type := mkActor { UID : Z; Internal : bool }.

(** Modelled from the spec: package [internal/actor] is not part of the
    sources at hand.  [IsInternal] reports whether the actor is marked as
    internal automation (the spec's caller-trust-class, 4.5 Sampling); a nil
    actor is not. *)
Definition IsInternal (a : option Actor) : bool :=
  match a with
  | Some a => Internal a
  | None => false
  end.

(** [func HoneySampleRate(cmd string, actor *actor.Actor) uint].  The actor
    is a pointer: reading [actor.UID] through a nil pointer panics, which is
    the result [None]. *)
Definition HoneySampleRate (cmd : string) (actor : option Actor) : option Z :=
  match actor with
  | None => None
  | Some a =>
      let internal := IsInternal actor || (UID a =? 0) in
      Some (if (String.eqb cmd "rev-parse" || String.eqb cmd "rev-list"
                || String.eqb cmd "config") && internal
            then Z.shiftl 1 14
            else if internal then 16
            else 8)
  end.

(** [time.Duration] values are nanoseconds. *)
Definition Millisecond : Z := 1000000.
Definition Second : Z := 1000 * Millisecond.
Definition Minute : Z := 60 * Second.

Definition gitCommandDefaultTimeout : Z := Minute.

(** [func shortGitCommandSlow(subcommand string) time.Duration] *)
Definition shortGitCommandSlow (subcommand : string) : Z :=
  if String.eqb subcommand "archive" then 1 * Minute
  else if String.eqb subcommand "blame" || String.eqb subcommand "ls-tree"
          || String.eqb subcommand "log" || String.eqb subcommand "show"
  then 5 * Second
  else if String.eqb subcommand "fetch" then 10 * Second
  else 2500 * Millisecond.

(* ================================================================= *)
(** ** The world around an invocation *)

(** A [context.Context], by how it was built.  [WithTimeout parent d] is
    [context.WithTimeout(parent, d)]; [CallerContext] is a context handed in
    by a caller, with or without a deadline. *)
Inductive context : Type :=
| Background
| CallerContext (hasDeadline : bool)
| WithTimeout (parent : context) (timeout : Z).

(** [_, ok := ctx.Deadline()] *)
Definition hasDeadline (ctx : context) : bool :=
  match ctx with
  | Background => false
  | CallerContext d => d
  | WithTimeout _ _ => true
  end.

(** [exec.Cmd] as this package uses it: [Args] (the program name first),
    the context given to [exec.CommandContext], which ends the process when it
    is done, the working directory, the environment and stdin.  An empty
    [Dir], an empty [Env] and no [Stdin] are the zero values: the directory
    and the environment of the calling process, and no input. *)
Record Cmd : Type := mkCmd {
  Args : list string;
  Ctx : context;
  Dir : string;
  Env : list string;
  Stdin : option (list byte)
}.

(** The [honey] event of [trace], by the fields whose values this package
    computes; the remaining fields (repo, actor, CPU times, page faults,
    block I/O, trace identifiers) are copied from the collaborators. *)
Record honeyEvent : Type := mkHoneyEvent {
  ev_sampleRate : option Z;
  ev_cmd : string;
  ev_args : list string;
  ev_exit_status : Z;
  ev_error : option error;
  ev_cmd_duration_ms : Z;
  ev_cmd_ru_maxrss_kib : Z
}.

(** What an invocation does to the outside, in the order it happens.
    [EvTraceAttrs] stands for the span attributes set at the end of [trace],
    with the three that depend on this package's arithmetic. *)
Inductive event : Type :=
| EvTraceNew (args : list string) (dir : string)
| EvStart (cmd : Cmd)
| EvExecRunningInc (subcommand : string)
| EvExecRunningDec (subcommand : string)
| EvExecDuration (subcommand : string) (duration : Z)
| EvHighMemory (subcommand : string)
| EvOSWait
| EvLogWarn (msg : string)
| EvLogError (msg : string)
| EvConfigSet (ctx : context) (key value : string)
| EvHoneySend (ev : honeyEvent)
| EvTraceAttrs (exit_code cmd_duration_ms cmd_ru_maxrss_kib : Z)
| EvTraceEnd (err : option error)
| EvCtxCancel.

(** What the launched process does, as the package observes it: the answer
    of the i-th [Read] on the stdout pipe, the writes it makes to stderr, the
    result of [Wait], and its [ProcessState] ([Maxrss] is zero when the
    system usage is not an rusage structure). *)
Record process : Type := mkProcess {
  stdoutAnswer : nat -> list byte * option error;
  stderrWrites : list (list byte);
  waitErr : option error;
  ExitCode : Z;
  Maxrss : Z
}.

(** What the operating system and the collaborating packages answer. *)
Record env : Type := mkEnv {
  GOOS : string;
  unixNow : Z;                     (* time.Now().Unix() *)
  callerCtxErr : option ctxError;  (* Err() of the caller's context and of
                                      the contexts derived from it, when the
                                      Wait step asks *)
  configSetErr : option error;     (* git.Config().Set *)
  honeyEnabled : bool;             (* honey.Enabled() *)
  sinceStart : Z;                  (* time.Since(rc.cmdStart) *)
  actorFromContext : Actor;        (* actor.FromContext(rc.ctx), never nil *)
  osEnviron : list string;         (* os.Environ() *)
  stdoutPipeErr : option error;    (* cmd.StdoutPipe() *)
  startErr : option error;         (* wrappedCmd.Start() *)
  proc : process
}.

(** [ctx.Err()].  The background context is never canceled. *)
Definition ctxErr (e : env) (ctx : context) : option error :=
  match ctx with
  | Background => None
  | _ => option_map ErrContext (callerCtxErr e)
  end.

(** The state monad over the event log. *)
Definition M (A : Type) : Type := list event -> A * list event.

Definition ret {A : Type} (a : A) : M A := fun w => (a, w).

Definition bind {A B : Type} (m : M A) (k : A -> M B) : M B :=
  fun w => let '(a, w') := m w in k a w'.

Definition emit (ev : event) : M unit := fun w => (tt, w ++ [ev]).

Definition when (b : bool) (m : M unit) : M unit := if b then m else ret tt.

Notation "x <- m ;; k" := (bind m (fun x => k))
  (at level 61, m at next level, right associativity).
Notation "m ;; k" := (bind m (fun _ => k))
  (at level 61, right associativity).

(* ================================================================= *)
(** ** Corruption marker *)

Definition gitConfigMaybeCorrupt : string := "sourcegraph.maybeCorruptRepo".

(** [strconv.FormatInt(i, 10)] *)
Definition FormatInt (i : Z) : string := NilZero.string_of_int (Z.to_int i).

(** [func checkMaybeCorruptRepo(logger, git, repo, stderr string) bool] *)
Definition checkMaybeCorruptRepo (e : env) (repo : string) (stderr : string)
  : M bool :=
  if negb (stdErrIndicatesCorruption stderr) then ret false
  else
    emit (EvLogWarn "marking repo for re-cloning due to stderr output indicating repo corruption") ;;
    emit (EvConfigSet Background gitConfigMaybeCorrupt (FormatInt (unixNow e))) ;;
    when (match configSetErr e with Some _ => true | None => false end)
         (emit (EvLogError "failed to set maybeCorruptRepo config")) ;;
    ret true.

(* ================================================================= *)
(** ** The streaming reader *)

(** [func commandFailedError(ctx, err, cmd, stderr) error] *)
Definition commandFailedError (e : env) (ctx : context) (err : error)
    (cmd : Cmd) (stderr : list byte) : error :=
  match ctxErr e ctx with
  | Some cerr => cerr
  | None => CommandFailedError stderr (ExitCode (proc e)) err (Args cmd)
  end.

(** [type cmdReader struct].  [stdoutReads] counts the reads made on the
    stdout pipe; [stderr] is the limit writer of [stderrBuffer] together with
    the buffer the process writes through it; [ownsCancel] tells whether
    [ctxCancel] is the cancel function of a timeout installed by
    [NewCommand] or the empty function; [waitOnce] is the done flag of the
    [sync.Once]. *)
Record cmdReader : Type := mkCmdReader {
  rc_stdoutReads : nat;
  rc_ctx : context;
  rc_ownsCancel : bool;
  rc_subcommand : string;
  rc_cmd : Cmd;
  rc_stderr : limitWriter.t Buffer;
  rc_repoName : string;
  rc_err : option error;
  rc_waitOnce : bool
}.

(** [rc.ctxCancel()] *)
Definition ctxCancel (owns : bool) : M unit := when owns (emit EvCtxCancel).

(** [func (rc *cmdReader) trace()].  Integer division of Go truncates
    ([Z.quot]).  [isHighMem] is the constant [false] of the source. *)
Definition trace (e : env) (rc : cmdReader) : M unit :=
  let duration := sinceStart e in
  emit (EvExecRunningDec (rc_subcommand rc)) ;;
  emit (EvExecDuration (rc_subcommand rc) duration) ;;
  let memUsage := rssToByteSize (GOOS e) (Maxrss (proc e)) in
  let isSlow := duration >? shortGitCommandSlow (rc_subcommand rc) in
  let isHighMem := false in
  when isHighMem (emit (EvHighMemory (rc_subcommand rc))) ;;
  when (honeyEnabled e || isSlow || isHighMem)
       (let act := actorFromContext e in
        let ev := {| ev_sampleRate := HoneySampleRate (rc_subcommand rc) (Some act);
                     ev_cmd := rc_subcommand rc;
                     ev_args := Args (rc_cmd rc);
                     ev_exit_status := ExitCode (proc e);
                     ev_error := rc_err rc;
                     ev_cmd_duration_ms := Z.quot duration Millisecond;
                     ev_cmd_ru_maxrss_kib := Z.quot memUsage bytesize.KiB |} in
        when (honeyEnabled e) (emit (EvHoneySend ev)) ;;
        when isSlow (emit (EvLogWarn "Long exec request")) ;;
        when isHighMem (emit (EvLogWarn "High memory usage exec request"))) ;;
  emit (EvTraceAttrs (ExitCode (proc e)) (Z.quot duration Millisecond)
                     (Z.quot memUsage bytesize.KiB)).

(** [func (rc *cmdReader) waitCmd() error].  The body of [waitOnce.Do] runs
    when the done flag is not set.  [rc.cmd.Wait()] returns after the process
    has exited and everything it wrote to stderr has gone through
    [cmd.Stderr], the limit writer. *)
Definition waitCmd (e : env) (rc : cmdReader) : M (option error * cmdReader) :=
  if rc_waitOnce rc then ret (rc_err rc, rc)
  else
    emit EvOSWait ;;
    let stderr := snd (writeAll (rc_stderr rc) (stderrWrites (proc e))) in
    let captured : Buffer := limitWriter.W stderr in
    err <- match waitErr (proc e) with
           | None => ret None
           | Some werr =>
               corrupt <- checkMaybeCorruptRepo e (rc_repoName rc)
                            (string_of_list_byte captured) ;;
               if corrupt
               then ret (Some (ErrRepoCorrupted (string_of_list_byte captured)))
               else ret (Some (commandFailedError e (rc_ctx rc) werr
                                                  (rc_cmd rc) captured))
           end ;;
    let rc' := {| rc_stdoutReads := rc_stdoutReads rc;
                  rc_ctx := rc_ctx rc;
                  rc_ownsCancel := rc_ownsCancel rc;
                  rc_subcommand := rc_subcommand rc;
                  rc_cmd := rc_cmd rc;
                  rc_stderr := stderr;
                  rc_repoName := rc_repoName rc;
                  rc_err := err;
                  rc_waitOnce := true |} in
    trace e rc' ;;
    emit (EvTraceEnd err) ;;
    ctxCancel (rc_ownsCancel rc) ;;
    ret (err, rc').

(** [rc.stdout.Read(p)]: the next answer of the pipe. *)
Definition stdoutRead (e : env) (rc : cmdReader)
  : (list byte * option error) * cmdReader :=
  (stdoutAnswer (proc e) (rc_stdoutReads rc),
   {| rc_stdoutReads := S (rc_stdoutReads rc);
      rc_ctx := rc_ctx rc;
      rc_ownsCancel := rc_ownsCancel rc;
      rc_subcommand := rc_subcommand rc;
      rc_cmd := rc_cmd rc;
      rc_stderr := rc_stderr rc;
      rc_repoName := rc_repoName rc;
      rc_err := rc_err rc;
      rc_waitOnce := rc_waitOnce rc |}).

(** [func (rc *cmdReader) Read(p []byte) (n int, err error)], returning the
    bytes placed in [p] for [n].  The mutex makes the call atomic. *)
Definition Read (e : env) (rc : cmdReader)
  : M ((list byte * option error) * cmdReader) :=
  let '((data, err), rc1) := stdoutRead e rc in
  match err with
  | Some ErrEOF =>
      r <- waitCmd e rc1 ;;
      match fst r with
      | Some werr => ret ((data, Some werr), snd r)
      | None => ret ((data, err), snd r)
      end
  | _ => ret ((data, err), rc1)
  end.

(** [func (rc *cmdReader) Close() error] *)
Definition Close (e : env) (rc : cmdReader) : M (option error * cmdReader) :=
  waitCmd e rc.

(* ================================================================= *)
(** ** Launch *)

(** [type commandOpts struct] *)
Record commandOpts : Type := mkOpts {
  arguments : list Argument;
  opt_env : list string;
  opt_stdin : option (list byte)
}.

Definition CommandOptionFunc : Type := commandOpts -> commandOpts.

Definition WithArguments (args : list Argument) : CommandOptionFunc :=
  fun o => mkOpts args (opt_env o) (opt_stdin o).

Definition WithStdin (stdin : list byte) : CommandOptionFunc :=
  fun o => mkOpts (arguments o) (opt_env o) (Some stdin).

Definition WithEnv (env : list string) : CommandOptionFunc :=
  fun o => mkOpts (arguments o) env (opt_stdin o).

(** [func optsFromFuncs(optFns ...CommandOptionFunc) commandOpts] *)
Definition optsFromFuncs (optFns : list CommandOptionFunc) : commandOpts :=
  fold_left (fun opts optFn => optFn opts) optFns (mkOpts [] [] None).

(** [type gitCLIBackend struct], by the fields [NewCommand] reads.  The
    type of [g.dir] belongs to package [common], which is not part of the
    sources at hand: [dir] is the path [g.dir.Path()], and [dirSet] is what
    [g.dir.Set(cmd)] does to the exported fields of a command, about which
    nothing is assumed. *)
Record gitCLIBackend : Type := mkBackend {
  dir : string;
  repoName : string;
  dirSet : Cmd -> Cmd
}.

(** [func (g *gitCLIBackend) NewCommand(ctx, subcommand, optFns...)].
    The deferred [tr.EndWithErr] is registered after the arguments have been
    built, so it runs on the two launch failures only.  [EvStart] is the call
    of [wrappedCmd.Start()], the one place where a process is created; the
    recording wrapper of [wrexec] adds nothing this model observes.  The
    command is made by [exec.CommandContext] (every field but [Args] and the
    context at its zero value) and handed to [g.dir.Set]; the context of an
    [exec.Cmd] is unexported, so it stays the one the command was made with;
    then [Env] is replaced when the options carry an environment and [Stdin]
    is set when they carry one. *)
Definition NewCommand (e : env) (g : gitCLIBackend) (ctx : context)
    (subcommand : string) (optFns : list CommandOptionFunc)
  : M (error + cmdReader) :=
  let opts := optsFromFuncs optFns in
  match argsFromArguments subcommand (arguments opts) with
  | inl err => ret (inl err)
  | inr args =>
      emit (EvTraceNew args (dir g)) ;;
      let owns := negb (hasDeadline ctx) in
      let ctx := if hasDeadline ctx then ctx
                 else WithTimeout ctx gitCommandDefaultTimeout in
      let cmd := dirSet g {| Args := "git"%string :: args;
                             Ctx := ctx;
                             Dir := EmptyString;
                             Env := [];
                             Stdin := None |} in
      let cmd := {| Args := Args cmd;
                    Ctx := ctx;
                    Dir := Dir cmd;
                    Env := match opt_env opts with
                           | [] => Env cmd
                           | _ :: _ => osEnviron e ++ opt_env opts
                           end;
                    Stdin := match opt_stdin opts with
                             | Some stdin => Some stdin
                             | None => Stdin cmd
                             end |} in
      let stderr := stderrBuffer in
      match stdoutPipeErr e with
      | Some perr =>
          let err := ErrWrap perr "failed to create stdout pipe" in
          ctxCancel owns ;;
          emit (EvTraceEnd (Some err)) ;;
          ret (inl err)
      | None =>
          emit (EvStart cmd) ;;
          match startErr e with
          | Some serr =>
              let err := ErrWrap serr "failed to start git process" in
              ctxCancel owns ;;
              emit (EvTraceEnd (Some err)) ;;
              ret (inl err)
          | None =>
              emit (EvExecRunningInc subcommand) ;;
              ret (inr {| rc_stdoutReads := 0;
                          rc_ctx := ctx;
                          rc_ownsCancel := owns;
                          rc_subcommand := subcommand;
                          rc_cmd := cmd;
                          rc_stderr := stderr;
                          rc_repoName := repoName g;
                          rc_err := None;
                          rc_waitOnce := false |})
          end
      end
  end.

(** The calls a consumer can make on a reader, and what each returned.  A
    read is recorded with the answer of the stdout pipe next to what [Read]
    handed to the caller. *)
Inductive call : Type :=
| CallRead
| CallClose.

Inductive outcome : Type :=
| Returned_Read (pipeErr : option error) (data : list byte) (err : option error)
| Returned_Close (err : option error).

Definition doCall (e : env) (c : call) (rc : cmdReader) : M (outcome * cmdReader) :=
  match c with
  | CallRead =>
      r <- Read e rc ;;
      ret (Returned_Read (snd (stdoutAnswer (proc e) (rc_stdoutReads rc)))
                         (fst (fst r)) (snd (fst r)), snd r)
  | CallClose =>
      r <- Close e rc ;;
      ret (Returned_Close (fst r), snd r)
  end.

(** A run: the calls in the order the mutex serialises them. *)
Fixpoint run (e : env) (cs : list call) (rc : cmdReader)
  : M (list outcome * cmdReader) :=
  match cs with
  | [] => ret ([], rc)
  | c :: rest =>
      r <- doCall e c rc ;;
      rs <- run e rest (snd r) ;;
      ret (fst r :: fst rs, snd rs)
  end.

(** The number of times the operating system's wait was invoked. *)
Definition osWaits (w : list event) : nat :=
  List.length (filter (fun ev => match ev with EvOSWait => true | _ => false end) w).

(** The launch attempts in an event log. *)
Definition launches (w : list event) : list Cmd :=
  flat_map (fun ev => match ev with EvStart c => [c] | _ => [] end) w.

(* ================================================================= *)
(** ** Reference descriptions used by the statements *)

(** The tokens the ordering rule of the command builder asks for: the
    override pairs, and the tokens of the other arguments. *)
Definition configTokens (args : list Argument) : list string :=
  flat_map (fun a => match a with
                     | ConfigArgument k v => ["-c"%string; (k ++ "=" ++ v)%string]
                     | _ => []
                     end) args.

Definition otherTokens (args : list Argument) : list string :=
  flat_map (fun a => match a with
                     | FlagArgument s => [s]
                     | SpecSafeValueArgument s => [s]
                     | ValueFlagArgument f v => [(f ++ "=" ++ v)%string]
                     | _ => []
                     end) args.

(** An argument the builder lets through. *)
Definition accepted (a : Argument) : bool :=
  match a with
  | SpecSafeValueArgument s => negb (String.prefix "-" s)
  | OtherArgument _ => false
  | _ => true
  end.

(** The validation errors of the error taxonomy: a malformed argument or an
    unrecognised argument variant. *)
Definition isValidationError (err : error) : bool :=
  match err with
  | ErrUnsafeSpec _ | ErrUnknownArgumentType _ => true
  | _ => false
  end.

(** A split of a text falls on the beginning of a line when nothing or a
    newline stands before it. *)
Definition lineStart (pre : string) : Prop :=
  pre = EmptyString
  \/ exists pre', pre = (pre' ++ String newline EmptyString)%string.

(** The position reached after the literal [l] has been read from [p]. *)
Fixpoint afterLit (l : string) (p : pos) : pos :=
  match l with
  | EmptyString => p
  | String c l' =>
      afterLit l' (Some c, match snd p with
                           | String _ s' => s'
                           | EmptyString => EmptyString
                           end)
  end.

(** The byte before the split point of [pre ++ post], when [prev] is the
    byte before [pre]. *)
Fixpoint before (prev : option ascii) (pre : string) : option ascii :=
  match pre with
  | EmptyString => prev
  | String c pre' => before (Some c) pre'
  end.

(** Whether [^] matches with [prev] as the byte before it. *)
Definition atLineStart (prev : option ascii) : bool :=
  match prev with
  | None => true
  | Some c => Ascii.eqb c newline
  end.

(** The honey event that [trace] fills in, and what [trace] emits between
    the duration metric and the span attributes: the event when honey is
    enabled, the warning when the command was slow. *)
Definition honeyEventOf (e : env) (rc : cmdReader) : honeyEvent :=
  {| ev_sampleRate := HoneySampleRate (rc_subcommand rc) (Some (actorFromContext e));
     ev_cmd := rc_subcommand rc;
     ev_args := Args (rc_cmd rc);
     ev_exit_status := ExitCode (proc e);
     ev_error := rc_err rc;
     ev_cmd_duration_ms := Z.quot (sinceStart e) Millisecond;
     ev_cmd_ru_maxrss_kib :=
       Z.quot (rssToByteSize (GOOS e) (Maxrss (proc e))) bytesize.KiB |}.

Definition sampledEvents (e : env) (rc : cmdReader) : list event :=
  (if honeyEnabled e then [EvHoneySend (honeyEventOf e rc)] else [])
  ++ (if sinceStart e >? shortGitCommandSlow (rc_subcommand rc)
      then [EvLogWarn "Long exec request"] else []).

(** The Wait step in closed form: the stderr text the capture holds once
    the process has exited, the outcome the step memoizes, the reader it
    leaves behind and the events it adds to the log. *)
Definition capturedStderr (e : env) (rc : cmdReader) : Buffer :=
  limitWriter.W (snd (writeAll (rc_stderr rc) (stderrWrites (proc e)))).

Definition waitOutcome (e : env) (rc : cmdReader) : option error :=
  match waitErr (proc e) with
  | None => None
  | Some werr =>
      let text := string_of_list_byte (capturedStderr e rc) in
      Some (if stdErrIndicatesCorruption text
            then ErrRepoCorrupted text
            else commandFailedError e (rc_ctx rc) werr (rc_cmd rc)
                                    (capturedStderr e rc))
  end.

Definition markerEvents (e : env) : list event :=
  [EvLogWarn "marking repo for re-cloning due to stderr output indicating repo corruption";
   EvConfigSet Background gitConfigMaybeCorrupt (FormatInt (unixNow e))]
  ++ match configSetErr e with
     | Some _ => [EvLogError "failed to set maybeCorruptRepo config"]
     | None => []
     end.

Definition waited (e : env) (rc : cmdReader) : cmdReader :=
  {| rc_stdoutReads := rc_stdoutReads rc;
     rc_ctx := rc_ctx rc;
     rc_ownsCancel := rc_ownsCancel rc;
     rc_subcommand := rc_subcommand rc;
     rc_cmd := rc_cmd rc;
     rc_stderr := snd (writeAll (rc_stderr rc) (stderrWrites (proc e)));
     rc_repoName := rc_repoName rc;
     rc_err := waitOutcome e rc;
     rc_waitOnce := true |}.

Definition waitEvents (e : env) (rc : cmdReader) : list event :=
  [EvOSWait]
  ++ match waitErr (proc e) with
     | Some _ =>
         if stdErrIndicatesCorruption (string_of_list_byte (capturedStderr e rc))
         then markerEvents e else []
     | None => []
     end
  ++ [EvExecRunningDec (rc_subcommand rc);
      EvExecDuration (rc_subcommand rc) (sinceStart e)]
  ++ sampledEvents e (waited e rc)
  ++ [EvTraceAttrs (ExitCode (proc e)) (Z.quot (sinceStart e) Millisecond)
        (Z.quot (rssToByteSize (GOOS e) (Maxrss (proc e))) bytesize.KiB);
      EvTraceEnd (waitOutcome e rc)]
  ++ (if rc_ownsCancel rc then [EvCtxCancel] else []).

(** What [Read] hands to its caller when the pipe reports end of stream and
    the Wait step has the outcome [o]: the outcome when it is an error, the
    end of stream otherwise. *)
Definition surfaced (o : option error) : option error :=
  match o with
  | Some werr => Some werr
  | None => Some ErrEOF
  end.

(** The calls that reach the Wait step: every [Close], and every [Read] on
    which the pipe reported end of stream. *)
Definition reachesWait (o : outcome) : bool :=
  match o with
  | Returned_Close _ => true
  | Returned_Read (Some ErrEOF) _ _ => true
  | Returned_Read _ _ _ => false
  end.


(** A returned value agrees with the memoized outcome [o]: a [Close]
    returned [o]; a [Read] on which the pipe reported end of stream returned
    what [surfaced o] says; other reads returned what the pipe answered. *)
Definition agrees (o : option error) (out : outcome) : Prop :=
  match out with
  | Returned_Close err => err = o
  | Returned_Read (Some ErrEOF) _ err => err = surfaced o
  | Returned_Read pipeErr _ err => err = pipeErr
  end.

(* ================================================================= *)
(** ** Sample invocations *)

(** A process that prints one chunk on stdout and then ends its stream,
    writes [stderr] to its stderr and is waited for with the result [werr]. *)
Definition sampleProcess (stderr : string) (werr : option error) (code : Z)
  : process :=
  {| stdoutAnswer := fun i => match i with
                              | O => (list_byte_of_string "commit 1a2b3c", None)
                              | S _ => ([], Some ErrEOF)
                              end;
     stderrWrites := [list_byte_of_string stderr];
     waitErr := werr;
     ExitCode := code;
     Maxrss := 2048 |}.

Definition sampleEnv (p : process) (cerr : option ctxError) : env :=
  {| GOOS := "linux";
     unixNow := 1700000000;
     callerCtxErr := cerr;
     configSetErr := Some (ErrOS "could not lock config file");
     honeyEnabled := true;
     sinceStart := 3 * Millisecond;
     actorFromContext := mkActor 0 false;
     osEnviron := ["PATH=/usr/bin"%string];
     stdoutPipeErr := None;
     startErr := None;
     proc := p |}.

Definition sampleBackend : gitCLIBackend :=
  mkBackend "/data/repos/github.com/sourcegraph/sourcegraph/.git"
            "github.com/sourcegraph/sourcegraph"
            (fun cmd =>
               {| Args := Args cmd;
                  Ctx := Ctx cmd;
                  Dir := "/data/repos/github.com/sourcegraph/sourcegraph/.git";
                  Env := Env cmd
                         ++ ["GIT_DIR=/data/repos/github.com/sourcegraph/sourcegraph/.git"%string];
                  Stdin := Stdin cmd |}).

(** The reader that [NewCommand] returns for [git log HEAD] on the sample
    backend when the caller's context carries a deadline. *)
Definition sampleReader : cmdReader :=
  {| rc_stdoutReads := 0;
     rc_ctx := CallerContext true;
     rc_ownsCancel := false;
     rc_subcommand := "log";
     rc_cmd := {| Args := ["git"; "log"; "HEAD"]%string;
                  Ctx := CallerContext true;
                  Dir := dir sampleBackend;
                  Env := ["GIT_DIR=/data/repos/github.com/sourcegraph/sourcegraph/.git"%string];
                  Stdin := None |};
     rc_stderr := stderrBuffer;
     rc_repoName := repoName sampleBackend;
     rc_err := None;
     rc_waitOnce := false |}.

(* ================================================================= *)
(** ** Readings of the event log and of a run *)

(** The number of events of a log that satisfy [p]. *)
Definition countEv (p : event -> bool) (w : list event) : nat :=
  List.length (filter p w).

Definition isRunningInc (subcommand : string) (ev : event) : bool :=
  match ev with EvExecRunningInc s => String.eqb s subcommand | _ => false end.

Definition isRunningDec (subcommand : string) (ev : event) : bool :=
  match ev with EvExecRunningDec s => String.eqb s subcommand | _ => false end.

Definition isConfigSet (ev : event) : bool :=
  match ev with EvConfigSet _ _ _ => true | _ => false end.

Definition isTraceNew (ev : event) : bool :=
  match ev with EvTraceNew _ _ => true | _ => false end.

Definition isTraceEnd (ev : event) : bool :=
  match ev with EvTraceEnd _ => true | _ => false end.

Definition isCtxCancel (ev : event) : bool :=
  match ev with EvCtxCancel => true | _ => false end.

Definition isHighMemory (ev : event) : bool :=
  match ev with
  | EvHighMemory _ => true
  | EvLogWarn msg => String.eqb msg "High memory usage exec request"
  | _ => false
  end.

Definition isHoneySend (ev : event) : bool :=
  match ev with EvHoneySend _ => true | _ => false end.

Definition isSlowWarning (ev : event) : bool :=
  match ev with
  | EvLogWarn msg => String.eqb msg "Long exec request"
  | _ => false
  end.

(** The value of the gauge [execRunning] for a subcommand after the events
    of [w], counted from zero: one up for each [Inc], one down for each
    [Dec]. *)
Definition execRunning (subcommand : string) (w : list event) : Z :=
  Z.of_nat (countEv (isRunningInc subcommand) w)
  - Z.of_nat (countEv (isRunningDec subcommand) w).

(** A reader with its count of pipe reads set to [n]. *)
Definition withReads (rc : cmdReader) (n : nat) : cmdReader :=
  {| rc_stdoutReads := n;
     rc_ctx := rc_ctx rc;
     rc_ownsCancel := rc_ownsCancel rc;
     rc_subcommand := rc_subcommand rc;
     rc_cmd := rc_cmd rc;
     rc_stderr := rc_stderr rc;
     rc_repoName := rc_repoName rc;
     rc_err := rc_err rc;
     rc_waitOnce := rc_waitOnce rc |}.

(** The number of [Read] calls in a sequence of calls. *)
Definition callReads (cs : list call) : nat :=
  List.length (filter (fun c => match c with CallRead => true | CallClose => false end) cs).

(** What the [Read] calls of a run handed out: the bytes of each, in order. *)
Definition dataRead (outs : list outcome) : list (list byte) :=
  flat_map (fun o => match o with
                     | Returned_Read _ data _ => [data]
                     | Returned_Close _ => []
                     end) outs.

(** The command as [exec.CommandContext] makes it for the tokens [args],
    and the command that [NewCommand] starts under the context [ctx]. *)
Definition freshCommand (ctx : context) (args : list string) : Cmd :=
  {| Args := "git"%string :: args;
     Ctx := ctx;
     Dir := EmptyString;
     Env := [];
     Stdin := None |}.

Definition commandFor (e : env) (g : gitCLIBackend) (ctx : context)
    (opts : commandOpts) (args : list string) : Cmd :=
  {| Args := Args (dirSet g (freshCommand ctx args));
     Ctx := ctx;
     Dir := Dir (dirSet g (freshCommand ctx args));
     Env := match opt_env opts with
            | [] => Env (dirSet g (freshCommand ctx args))
            | _ :: _ => osEnviron e ++ opt_env opts
            end;
     Stdin := match opt_stdin opts with
              | Some stdin => Some stdin
              | None => Stdin (dirSet g (freshCommand ctx args))
              end |}.

(** The io.Writer contract on the byte count: between 0 and [len(p)]. *)
Definition countsWithinInput (X : Type) `{Writer X} : Prop :=
  forall (x : X) (p : list byte),
    0 <= fst (fst (Write x p)) <= len p.

(** The number of [ConfigArgument]s in a list of arguments. *)
Definition configCount (args : list Argument) : nat :=
  List.length (filter (fun a => match a with ConfigArgument _ _ => true | _ => false end) args).

(** The context [NewCommand] runs the process under, and the reader it
    returns once the process has started. *)
Definition launchContext (ctx : context) : context :=
  if hasDeadline ctx then ctx else WithTimeout ctx gitCommandDefaultTimeout.

Definition launchedReader (e : env) (g : gitCLIBackend) (ctx : context)
    (subcommand : string) (opts : commandOpts) (args : list string)
  : cmdReader :=
  {| rc_stdoutReads := 0;
     rc_ctx := launchContext ctx;
     rc_ownsCancel := negb (hasDeadline ctx);
     rc_subcommand := subcommand;
     rc_cmd := commandFor e g (launchContext ctx) opts args;
     rc_stderr := stderrBuffer;
     rc_repoName := repoName g;
     rc_err := None;
     rc_waitOnce := false |}.

(** What [Read] returns as its error when the pipe answered [pipeErr] and
    the Wait step has the outcome [o]: the pipe's answer, except that an end
    of stream is replaced by the outcome when that is an error. *)
Definition handedBack (o pipeErr : option error) : option error :=
  match pipeErr with
  | Some ErrEOF => surfaced o
  | _ => pipeErr
  end.

(** The error of a read on a pipe that has been closed. *)
Definition fileAlreadyClosed : error := ErrOS "read |0: file already closed".

(** A process like [sampleProcess], seen through a pipe that behaves as the
    stdout pipe of [exec.Cmd] does in a run where the second read meets the
    end of the stream: that read makes the reader wait, the wait closes the
    pipe, and every later read fails on the closed file. *)
Definition closingProcess (stderr : string) (werr : option error) (code : Z)
  : process :=
  {| stdoutAnswer := fun i => match i with
                              | O => (list_byte_of_string "commit 1a2b3c", None)
                              | S O => ([], Some ErrEOF)
                              | S (S _) => ([], Some fileAlreadyClosed)
                              end;
     stderrWrites := [list_byte_of_string stderr];
     waitErr := werr;
     ExitCode := code;
     Maxrss := 2048 |}.

(* ================================================================= *)
(** * Properties *)

(** ** Command builder *)

Lemma argsLoop_accepted (args : list Argument) :
  forall configFlags flags,
    forallb accepted args = true ->
    argsLoop args configFlags flags
    = inr (configFlags ++ configTokens args, flags ++ otherTokens args).
Proof.
  induction args as [|a rest IH]; intros cf fl Hacc; simpl.
  - now rewrite !app_nil_r.
  - simpl in Hacc. apply andb_true_iff in Hacc as [Ha Hrest].
    destruct a as [s|s|f v|k v|ty]; simpl in Ha; try discriminate.
    + rewrite IH by assumption. now rewrite <- app_assoc.
    + unfold checkSpecArgSafety.
      destruct (String.prefix "-" s); [discriminate|].
      rewrite IH by assumption. now rewrite <- app_assoc.
    + rewrite IH by assumption. now rewrite <- app_assoc.
    + rewrite IH by assumption. now rewrite <- app_assoc.
Qed.

Lemma argsLoop_inr (args : list Argument) :
  forall configFlags flags r,
    argsLoop args configFlags flags = inr r -> forallb accepted args = true.
Proof.
  induction args as [|a rest IH]; intros cf fl r H; simpl in *; [reflexivity|].
  destruct a as [s|s|f v|k v|ty]; simpl.
  - eapply IH; eassumption.
  - unfold checkSpecArgSafety in H.
    destruct (String.prefix "-" s); [discriminate|]. simpl. eapply IH; eassumption.
  - eapply IH; eassumption.
  - eapply IH; eassumption.
  - discriminate.
Qed.

(** The first argument that is not let through decides the error. *)
Lemma argsLoop_first_rejected (pre : list Argument) :
  forall a post configFlags flags,
    forallb accepted pre = true ->
    argsLoop (pre ++ a :: post) configFlags flags
    = argsLoop (a :: post) (configFlags ++ configTokens pre)
               (flags ++ otherTokens pre).
Proof.
  induction pre as [|b pre IH]; intros a post cf fl Hacc.
  - simpl configTokens. simpl otherTokens. now rewrite !app_nil_r.
  - simpl in Hacc. apply andb_true_iff in Hacc as [Hb Hpre].
    change ((b :: pre) ++ a :: post) with (b :: (pre ++ a :: post)).
    destruct b as [s|s|f v|k v|ty]; simpl in Hb; try discriminate;
      cbn [argsLoop]; [ | unfold checkSpecArgSafety;
                          destruct (String.prefix "-" s); [discriminate|] | | ];
      rewrite IH by assumption; cbn [configTokens otherTokens flat_map];
      now rewrite <- ?app_assoc.
Qed.

Lemma forallb_accepted_split (args : list Argument) :
  forallb accepted args = false ->
  exists pre a post,
    args = pre ++ a :: post /\ forallb accepted pre = true /\ accepted a = false.
Proof.
  induction args as [|b rest IH]; simpl; intros H; [discriminate|].
  destruct (accepted b) eqn:Hb.
  - simpl in H. destruct (IH H) as (pre & a & post & -> & Hpre & Ha).
    exists (b :: pre), a, post. simpl. rewrite Hb, Hpre. auto.
  - exists [], b, rest. auto.
Qed.

Lemma argsLoop_rejected (args : list Argument) :
  forall configFlags flags,
    forallb accepted args = false ->
    exists err,
      argsLoop args configFlags flags = inl err /\ isValidationError err = true.
Proof.
  intros cf fl H.
  destruct (forallb_accepted_split args H) as (pre & a & post & -> & Hpre & Ha).
  rewrite argsLoop_first_rejected by assumption.
  destruct a as [s|s|f v|k v|ty]; simpl in Ha; try discriminate.
  - cbn [argsLoop]. unfold checkSpecArgSafety.
    destruct (String.prefix "-" s); [|discriminate].
    eexists; split; reflexivity.
  - cbn [argsLoop]. eexists; split; reflexivity.
Qed.

Lemma in_not_accepted (a : Argument) (args : list Argument) :
  In a args -> accepted a = false -> forallb accepted args = false.
Proof.
  intros Hin Ha.
  destruct (forallb accepted args) eqn:E; [|reflexivity].
  rewrite forallb_forall in E. rewrite (E a Hin) in Ha. discriminate.
Qed.

(** C2. For every subcommand and every sequence of arguments, the token list
    that [argsFromArguments] builds is the override pairs ("-c" and
    "key=value" each, in input order), then the subcommand, then the tokens
    of the other arguments in input order; a list is built exactly when every
    argument is let through; and subcommand "log" with the override
    core.test=1 and the value "HEAD" gives "-c", "core.test=1", "log",
    "HEAD". *)
Theorem argsFromArguments_order (subcommand : string) (args : list Argument) :
  (forall out,
      argsFromArguments subcommand args = inr out ->
      out = configTokens args ++ [subcommand] ++ otherTokens args)
  /\ (forallb accepted args = true <->
      argsFromArguments subcommand args
      = inr (configTokens args ++ [subcommand] ++ otherTokens args))
  /\ argsFromArguments "log"
       [ConfigArgument "core.test" "1"; SpecSafeValueArgument "HEAD"]
     = inr ["-c"; "core.test=1"; "log"; "HEAD"]%string.
Proof.
  assert (Hok : forallb accepted args = true ->
                argsFromArguments subcommand args
                = inr (configTokens args ++ [subcommand] ++ otherTokens args)).
  { intros Hacc. unfold argsFromArguments.
    now rewrite (argsLoop_accepted args [] [] Hacc). }
  assert (Hacc : forall out, argsFromArguments subcommand args = inr out ->
                             forallb accepted args = true).
  { unfold argsFromArguments. intros out H.
    destruct (argsLoop args [] []) as [err|r] eqn:E; [discriminate|].
    eapply argsLoop_inr; eassumption. }
  split; [|split].
  - intros out H. rewrite (Hok (Hacc out H)) in H. now inversion H.
  - split; [exact Hok|]. intros H. eapply Hacc; eassumption.
  - reflexivity.
Qed.

Lemma NewCommand_validation_error (e : env) (g : gitCLIBackend) (ctx : context)
    (subcommand : string) (optFns : list CommandOptionFunc) (w : list event) :
  forallb accepted (arguments (optsFromFuncs optFns)) = false ->
  exists err,
    argsFromArguments subcommand (arguments (optsFromFuncs optFns)) = inl err
    /\ isValidationError err = true
    /\ NewCommand e g ctx subcommand optFns w = (inl err, w).
Proof.
  intros H.
  destruct (argsLoop_rejected _ [] [] H) as (err & Hloop & Hval).
  exists err. unfold NewCommand, argsFromArguments. rewrite Hloop. auto.
Qed.

(** C3. Whenever the arguments contain a [SpecSafeValueArgument] whose
    string begins with "-", building fails with a validation error and
    [NewCommand] returns that error with the event log untouched: no process
    is launched.  The same holds when the arguments contain a value that is
    none of the four variants.  The error is that of the first offending
    argument: the unsafe-spec error for a value beginning with "-", the
    unknown-argument-type error for a foreign shape.  A ref name "-rf" is
    refused in this way. *)
Theorem NewCommand_rejects_bad_arguments (e : env) (g : gitCLIBackend)
    (ctx : context) (subcommand : string) (optFns : list CommandOptionFunc)
    (w : list event) :
  let args := arguments (optsFromFuncs optFns) in
  let refused :=
    exists err,
      argsFromArguments subcommand args = inl err
      /\ isValidationError err = true
      /\ NewCommand e g ctx subcommand optFns w = (inl err, w)
      /\ launches (snd (NewCommand e g ctx subcommand optFns w)) = launches w in
  (forall s, In (SpecSafeValueArgument s) args ->
             String.prefix "-" s = true -> refused)
  /\ (forall ty, In (OtherArgument ty) args -> refused)
  /\ (forall pre s post,
         args = pre ++ SpecSafeValueArgument s :: post ->
         forallb accepted pre = true -> String.prefix "-" s = true ->
         NewCommand e g ctx subcommand optFns w = (inl (ErrUnsafeSpec s), w))
  /\ (forall pre ty post,
         args = pre ++ OtherArgument ty :: post ->
         forallb accepted pre = true ->
         NewCommand e g ctx subcommand optFns w
         = (inl (ErrUnknownArgumentType ty), w))
  /\ NewCommand e g ctx "rev-parse"
       [WithArguments [SpecSafeValueArgument "-rf"]] w
     = (inl (ErrUnsafeSpec "-rf"), w).
Proof.
  intros args refused.
  assert (Hrefused : forall a, In a args -> accepted a = false -> refused).
  { intros a Hin Ha.
    destruct (NewCommand_validation_error e g ctx subcommand optFns w
                (in_not_accepted a args Hin Ha)) as (err & H1 & H2 & H3).
    exists err. rewrite H3. auto. }
  repeat split.
  - intros s Hin Hs. apply (Hrefused _ Hin). simpl. now rewrite Hs.
  - intros ty Hin. apply (Hrefused _ Hin). reflexivity.
  - intros pre s post Hargs Hpre Hs.
    unfold NewCommand, argsFromArguments. fold args. rewrite Hargs.
    rewrite argsLoop_first_rejected by assumption.
    cbn [argsLoop]. unfold checkSpecArgSafety. now rewrite Hs.
  - intros pre ty post Hargs Hpre.
    unfold NewCommand, argsFromArguments. fold args. rewrite Hargs.
    rewrite argsLoop_first_rejected by assumption. reflexivity.
Qed.

(** ** Corruption heuristic *)

Lemma rmatch_lit (l : string) :
  forall p, rmatch (lit l) p
            = if String.prefix l (snd p) then [afterLit l p] else [].
Proof.
  induction l as [|c l IH]; intros [prev s].
  - now destruct s.
  - destruct s as [|c' s']; [reflexivity|]. cbn [lit rmatch snd String.prefix].
    destruct (Ascii.eqb_spec c c') as [->|Hne].
    + destruct (ascii_dec c' c') as [_|N]; [|contradiction].
      cbn [flat_map]. rewrite IH, app_nil_r. reflexivity.
    + destruct (ascii_dec c c') as [E|_]; [contradiction|reflexivity].
Qed.

Lemma rmatch_cat_lit (l : string) (r : regex) (p : pos) :
  rmatch (Cat (lit l) r) p
  = if String.prefix l (snd p) then rmatch r (afterLit l p) else [].
Proof.
  cbn [rmatch]. rewrite rmatch_lit.
  destruct (String.prefix l (snd p)); simpl; [apply app_nil_r|reflexivity].
Qed.

Lemma prefix_append (a b : string) :
  forall p, String.prefix (a ++ b) (snd p)
            = String.prefix a (snd p) && String.prefix b (snd (afterLit a p)).
Proof.
  induction a as [|c a IH]; intros [prev s]; destruct s as [|c' s']; simpl;
    try reflexivity.
  destruct (ascii_dec c c') as [->|]; [|reflexivity].
  apply (IH (Some c', s')).
Qed.

Lemma rmatch_beginLine (r : regex) (prev : option ascii) (s : string) :
  rmatch (Cat BeginLine r) (prev, s)
  = if atLineStart prev then rmatch r (prev, s) else [].
Proof.
  change (rmatch (Cat BeginLine r) (prev, s))
    with (flat_map (rmatch r) (rmatch BeginLine (prev, s))).
  cbn [rmatch fst]. destruct prev as [c|]; cbn [atLineStart].
  - destruct (Ascii.eqb c newline); cbn [flat_map];
      [apply app_nil_r|reflexivity].
  - cbn [flat_map]. apply app_nil_r.
Qed.

Lemma matchesAt_objectOrPackFile (prev : option ascii) (s : string) :
  matchesAt objectOrPackFileCorruptionRegex (prev, s)
  = atLineStart prev
    && (String.prefix "error: Could not read " s
        || String.prefix "error: packfile " s).
Proof.
  change "error: Could not read "%string
    with ("error: " ++ ("Could not read" ++ " "))%string.
  change "error: packfile "%string
    with ("error: " ++ ("packfile" ++ " "))%string.
  rewrite !(prefix_append "error: " _ (prev, s)).
  rewrite !(prefix_append _ " " (afterLit "error: " (prev, s))).
  unfold matchesAt, objectOrPackFileCorruptionRegex.
  rewrite rmatch_beginLine. destruct (atLineStart prev); [|reflexivity].
  rewrite rmatch_cat_lit. cbn [snd].
  destruct (String.prefix "error: " s); [|reflexivity].
  remember (afterLit "error: " (prev, s)) as p1 eqn:E1. clear E1.
  cbn [rmatch]. rewrite flat_map_app, !rmatch_lit.
  remember (afterLit "Could not read" p1) as p2 eqn:E2.
  remember (afterLit "packfile" p1) as p3 eqn:E3. clear E2 E3.
  destruct (String.prefix "Could not read" (snd p1)),
           (String.prefix "packfile" (snd p1));
    cbn [flat_map app andb orb]; rewrite ?app_nil_r, ?rmatch_lit;
    destruct (String.prefix " " (snd p2)), (String.prefix " " (snd p3));
    reflexivity.
Qed.

Lemma matchesAt_commitGraph (prev : option ascii) (s : string) :
  matchesAt commitGraphCorruptionRegex (prev, s)
  = atLineStart prev
    && String.prefix
         "fatal: commit-graph requires overflow generation data but has none" s.
Proof.
  unfold matchesAt, commitGraphCorruptionRegex.
  rewrite rmatch_beginLine. destruct (atLineStart prev); [|reflexivity].
  rewrite rmatch_lit. cbn [snd andb].
  match goal with |- context [String.prefix ?l s] =>
    destruct (String.prefix l s) end; reflexivity.
Qed.

Lemma search_split (r : regex) (s : string) :
  forall prev,
    search r prev s = true <->
    exists pre post,
      s = (pre ++ post)%string /\ matchesAt r (before prev pre, post) = true.
Proof.
  induction s as [|c s IH]; intros prev; simpl.
  - rewrite orb_false_r. split.
    + intros H. exists EmptyString, EmptyString. auto.
    + intros (pre & post & Hs & Hm).
      destruct pre; [|discriminate]. simpl in Hs. subst post. exact Hm.
  - rewrite orb_true_iff, IH. split.
    + intros [H|(pre & post & -> & Hm)].
      * exists EmptyString, (String c s). auto.
      * exists (String c pre), post. auto.
    + intros (pre & post & Hs & Hm). destruct pre as [|c' pre].
      * simpl in Hs. subst post. left. exact Hm.
      * simpl in Hs. inversion Hs; subst. right. exists pre, post. auto.
Qed.

Lemma before_cases (pre : string) :
  forall prev,
    (pre = EmptyString /\ before prev pre = prev)
    \/ exists pre' c, pre = (pre' ++ String c EmptyString)%string
                      /\ before prev pre = Some c.
Proof.
  induction pre as [|d pre IH]; intros prev; [left; auto|right].
  destruct (IH (Some d)) as [[-> H]|(pre' & c & -> & H)].
  - exists EmptyString, d. auto.
  - exists (String d pre'), c. auto.
Qed.

Lemma string_snoc_inj (a b : string) :
  forall c d, (a ++ String c EmptyString)%string = (b ++ String d EmptyString)%string ->
              c = d.
Proof.
  revert b. induction a as [|x a IH]; intros [|y b] c d H; simpl in H.
  - now inversion H.
  - inversion H. destruct b; discriminate.
  - inversion H. destruct a; discriminate.
  - inversion H. eapply IH; eassumption.
Qed.

Lemma atLineStart_before (pre : string) :
  atLineStart (before None pre) = true <-> lineStart pre.
Proof.
  unfold lineStart.
  destruct (before_cases pre None) as [[-> H]|(pre' & c & -> & H)].
  - split; auto.
  - rewrite H. simpl. split.
    + intros E. apply Ascii.eqb_eq in E. subst c. right. eauto.
    + intros [E|(q & E)].
      * destruct pre'; discriminate.
      * apply string_snoc_inj in E. subst c. apply Ascii.eqb_refl.
Qed.

(** C6. The heuristic answers true on "error: Could not read abc123" and
    false on "fatal: unknown flag".  In general its answer is the
    disjunction of the two pattern matches; the object/packfile pattern
    matches exactly the texts in which some line begins with
    "error: Could not read " or with "error: packfile ", and the commit-graph
    pattern exactly those in which some line begins with the overflow-data
    message. *)
Theorem stdErrIndicatesCorruption_spec :
  stdErrIndicatesCorruption "error: Could not read abc123" = true
  /\ stdErrIndicatesCorruption "fatal: unknown flag" = false
  /\ (forall stderr,
         stdErrIndicatesCorruption stderr = true <->
         MatchString objectOrPackFileCorruptionRegex stderr = true
         \/ MatchString commitGraphCorruptionRegex stderr = true)
  /\ (forall stderr,
         MatchString objectOrPackFileCorruptionRegex stderr = true <->
         exists pre post,
           stderr = (pre ++ post)%string /\ lineStart pre
           /\ (String.prefix "error: Could not read " post = true
               \/ String.prefix "error: packfile " post = true))
  /\ (forall stderr,
         MatchString commitGraphCorruptionRegex stderr = true <->
         exists pre post,
           stderr = (pre ++ post)%string /\ lineStart pre
           /\ String.prefix
                "fatal: commit-graph requires overflow generation data but has none"
                post = true).
Proof.
  split; [reflexivity|]. split; [reflexivity|]. split; [|split].
  - intros stderr. unfold stdErrIndicatesCorruption. apply orb_true_iff.
  - intros stderr. unfold MatchString. rewrite search_split.
    split; intros (pre & post & Hs & H); exists pre, post; (split; [exact Hs|]).
    + rewrite matchesAt_objectOrPackFile in H.
      apply andb_true_iff in H as [H1 H2].
      split; [now apply atLineStart_before|now apply orb_true_iff].
    + rewrite matchesAt_objectOrPackFile. destruct H as [H1 H2].
      apply andb_true_iff. split;
        [now apply atLineStart_before|now apply orb_true_iff].
  - intros stderr. unfold MatchString. rewrite search_split.
    split; intros (pre & post & Hs & H); exists pre, post; (split; [exact Hs|]).
    + rewrite matchesAt_commitGraph in H. apply andb_true_iff in H as [H1 H2].
      split; [now apply atLineStart_before|assumption].
    + rewrite matchesAt_commitGraph. destruct H as [H1 H2].
      apply andb_true_iff. split; [now apply atLineStart_before|assumption].
Qed.

(** ** Bounded stderr capture *)

Lemma len_app {A : Type} (a b : list A) : len (a ++ b) = len a + len b.
Proof. unfold len. rewrite length_app. lia. Qed.

Lemma len_firstn {A : Type} (n : Z) (p : list A) :
  0 <= n -> len (firstn (Z.to_nat n) p) = Z.min n (len p).
Proof. intros Hn. unfold len. rewrite length_firstn. lia. Qed.

(** One write through the limit writer into a [bytes.Buffer], in closed
    form. *)
Lemma limitWriter_Write_Buffer (l : limitWriter.t Buffer) (p : list byte) :
  0 <= limitWriter.N l ->
  limitWriter.Write l p
  = ((len p, None),
     limitWriter.mk (limitWriter.W l ++ firstn (Z.to_nat (limitWriter.N l)) p)
                    (limitWriter.N l - Z.min (limitWriter.N l) (len p))).
Proof.
  destruct l as [buf n]. cbn [limitWriter.W limitWriter.N]. intros Hn.
  unfold limitWriter.Write. cbn [limitWriter.W limitWriter.N].
  assert (Hlen : 0 <= len p) by (unfold len; lia).
  destruct (Z.leb_spec n 0) as [Hz|Hpos].
  - replace n with 0 by lia. cbn [Z.to_nat firstn].
    rewrite app_nil_r. repeat f_equal. lia.
  - destruct (Z.gtb_spec (len p) n) as [Hgt|Hle]; unfold Write, Buffer_Writer.
    + rewrite len_firstn by lia.
      replace (n - Z.min n (len p)) with 0 by lia.
      reflexivity.
    + rewrite firstn_all2 by (unfold len in *; lia).
      replace (Z.min n (len p)) with (len p) by lia.
      destruct (n - len p <=? 0); reflexivity.
Qed.

Lemma writeAll_limitWriter (ps : list (list byte)) :
  forall l : limitWriter.t Buffer,
    0 <= limitWriter.N l ->
    writeAll l ps
    = (map (fun p => (len p, None)) ps,
       limitWriter.mk
         (limitWriter.W l ++ firstn (Z.to_nat (limitWriter.N l)) (List.concat ps))
         (limitWriter.N l - Z.min (limitWriter.N l) (len (List.concat ps)))).
Proof.
  induction ps as [|p ps IH]; intros l.
  - destruct l as [buf n]. cbn [limitWriter.W limitWriter.N writeAll map List.concat].
    intros Hn. rewrite firstn_nil, app_nil_r. repeat f_equal.
    change (len (@nil byte)) with 0. lia.
  - intros Hn. cbn [writeAll map List.concat].
    change (Write l p) with (limitWriter.Write l p).
    rewrite limitWriter_Write_Buffer by assumption.
    assert (Hlen : 0 <= len p) by (unfold len; lia).
    rewrite IH by (cbn [limitWriter.N]; lia).
    cbn [limitWriter.W limitWriter.N].
    rewrite firstn_app, len_app, <- app_assoc.
    replace (Z.to_nat (limitWriter.N l - Z.min (limitWriter.N l) (len p)))
      with (Z.to_nat (limitWriter.N l) - List.length p)%nat
      by (unfold len; lia).
    assert (0 <= len (List.concat ps)) by (unfold len; lia).
    do 2 f_equal. lia.
Qed.

(** C7. After any sequence of writes to the stderr capture the buffer holds
    the first 1024 bytes of what was written, so never more than 1024; every
    write reports the full length of its input and no error; a write that
    arrives when nothing remains of the cap leaves the buffer as it was; a
    write that crosses the cap appends only the part that still fits,
    fills the buffer to 1024 bytes and exhausts the cap; a write that fits
    is appended whole. *)
Theorem limitWriter_caps_stderr (ps : list (list byte)) (p : list byte) :
  let l := snd (writeAll stderrBuffer ps) in
  let r := limitWriter.Write l p in
  let l' := snd r in
  limitWriter.W l = firstn 1024 (List.concat ps)
  /\ limitWriter.N l = maxStderrCapture - len (limitWriter.W l)
  /\ len (limitWriter.W l) <= maxStderrCapture
  /\ len (limitWriter.W l') <= maxStderrCapture
  /\ fst (writeAll stderrBuffer ps) = map (fun q => (len q, None)) ps
  /\ fst r = (len p, None)
  /\ (limitWriter.N l <= 0 -> limitWriter.W l' = limitWriter.W l)
  /\ (0 < limitWriter.N l < len p ->
      limitWriter.W l' = limitWriter.W l ++ firstn (Z.to_nat (limitWriter.N l)) p
      /\ len (limitWriter.W l') = maxStderrCapture
      /\ limitWriter.N l' = 0)
  /\ (len p <= limitWriter.N l -> limitWriter.W l' = limitWriter.W l ++ p).
Proof.
  intros l r l'. subst l' r l.
  rewrite (writeAll_limitWriter ps stderrBuffer) by (cbv; discriminate).
  cbn [fst snd]. rewrite limitWriter_Write_Buffer;
    cbn [stderrBuffer limitWriter.W limitWriter.N fst snd app];
    unfold maxStderrCapture.
  2: { assert (0 <= len (List.concat ps)) by (unfold len; lia). lia. }
  change (Z.to_nat 1024) with 1024%nat.
  assert (Hc : 0 <= len (List.concat ps)) by (unfold len; lia).
  assert (Hp : 0 <= len p) by (unfold len; lia).
  assert (Hf : len (firstn 1024 (List.concat ps)) = Z.min 1024 (len (List.concat ps))).
  { change 1024%nat with (Z.to_nat 1024). apply len_firstn. lia. }
  repeat split.
  - lia.
  - lia.
  - rewrite len_app, len_firstn by lia. lia.
  - intros H. replace (1024 - Z.min 1024 (len (List.concat ps))) with 0 by lia.
    cbn [Z.to_nat firstn]. apply app_nil_r.
  - rewrite len_app, len_firstn by lia. lia.
  - lia.
  - intros H. rewrite (@firstn_all2 _ _ p); [reflexivity|].
    unfold len in *. lia.
Qed.

(** ** Resource usage and sampling *)

Lemma wrap64_small (z : Z) : - 2 ^ 63 <= z < 2 ^ 63 -> wrap64 z = z.
Proof. intros H. unfold wrap64. rewrite Z.mod_small; lia. Qed.

Lemma trace_events (e : env) (rc : cmdReader) (w : list event) :
  trace e rc w
  = (tt,
     w ++ [EvExecRunningDec (rc_subcommand rc);
           EvExecDuration (rc_subcommand rc) (sinceStart e)]
       ++ sampledEvents e rc
       ++ [EvTraceAttrs (ExitCode (proc e))
             (Z.quot (sinceStart e) Millisecond)
             (Z.quot (rssToByteSize (GOOS e) (Maxrss (proc e))) bytesize.KiB)]).
Proof.
  unfold trace, sampledEvents, bind, emit, when, ret.
  destruct (honeyEnabled e),
           (sinceStart e >? shortGitCommandSlow (rc_subcommand rc));
    cbn [orb fst snd app]; rewrite <- ?app_assoc; reflexivity.
Qed.

Lemma sampledEvents_cases (e : env) (rc : cmdReader) (ev : event) :
  In ev (sampledEvents e rc) ->
  ev = EvLogWarn "Long exec request" \/ ev = EvHoneySend (honeyEventOf e rc).
Proof.
  unfold sampledEvents.
  destruct (honeyEnabled e),
           (sinceStart e >? shortGitCommandSlow (rc_subcommand rc));
    cbn [app In]; intuition auto.
Qed.

(** C9. For a raw [Maxrss] value of the [int64] range, the normalisation
    returns it unchanged on darwin, where it is a number of bytes; on any
    other platform it returns the value times 1024, in 64-bit arithmetic,
    which is the exact product whenever that fits (below 2^53 KiB).  The
    figure that [trace] attaches to the span and to the honey event is this
    normalised byte count divided by a kibibyte. *)
Theorem rssToByteSize_normalizes (goos : string) (rss : Z)
    (e : env) (rc : cmdReader) (w : list event) :
  - 2 ^ 63 <= rss < 2 ^ 63 ->
  rssToByteSize "darwin" rss = rss
  /\ (goos <> "darwin"%string ->
      rssToByteSize goos rss = wrap64 (rss * 1024)
      /\ (- 2 ^ 53 <= rss < 2 ^ 53 -> rssToByteSize goos rss = rss * 1024))
  /\ In (EvTraceAttrs (ExitCode (proc e)) (Z.quot (sinceStart e) Millisecond)
           (Z.quot (rssToByteSize (GOOS e) (Maxrss (proc e))) bytesize.KiB))
        (snd (trace e rc w))
  /\ (forall h, In (EvHoneySend h) (snd (trace e rc w)) ->
                ~ In (EvHoneySend h) w ->
                ev_cmd_ru_maxrss_kib h
                = Z.quot (rssToByteSize (GOOS e) (Maxrss (proc e))) bytesize.KiB).
Proof.
  intros Hrange. split; [|split; [|split]].
  - unfold rssToByteSize. cbn [String.eqb Ascii.eqb Bool.eqb].
    unfold bytesize.B. rewrite Z.mul_1_r. now apply wrap64_small.
  - intros Hos. unfold rssToByteSize.
    destruct (String.eqb_spec goos "darwin") as [E|_]; [contradiction|].
    unfold bytesize.KiB. split; [reflexivity|].
    intros Hsmall. apply wrap64_small. lia.
  - rewrite trace_events. cbn [snd]. rewrite !in_app_iff.
    right. right. right. left. reflexivity.
  - intros h Hin Hnew. rewrite trace_events in Hin. cbn [snd] in Hin.
    rewrite !in_app_iff in Hin. cbn [In] in Hin.
    destruct Hin as [H|[H|[H|H]]].
    + contradiction.
    + destruct H as [H|[H|[]]]; discriminate.
    + destruct (sampledEvents_cases _ _ _ H) as [H'|H']; [discriminate|].
      inversion H'; subst. reflexivity.
    + destruct H as [H|[]]. discriminate.
Qed.

Lemma HoneySampleRate_closed (cmd : string) (a : Actor) :
  HoneySampleRate cmd (Some a)
  = Some (if Internal a || (UID a =? 0)
          then if String.eqb cmd "rev-parse" || String.eqb cmd "rev-list"
                  || String.eqb cmd "config"
               then 16384 else 16
          else 8).
Proof.
  unfold HoneySampleRate, IsInternal.
  destruct (Internal a || (UID a =? 0)),
           (String.eqb cmd "rev-parse" || String.eqb cmd "rev-list"
            || String.eqb cmd "config"); reflexivity.
Qed.

(** C10. An actor with UID 0 gets the rate of an internal actor whether or
    not it is marked internal.  For internal traffic the rate is 16384 on
    rev-parse, rev-list and config and 16 on every other subcommand; for the
    remaining, external traffic it is 8.  So on every subcommand the internal
    rate is at least the external one. *)
Theorem HoneySampleRate_spec (cmd : string) (a : Actor) :
  let hot := cmd = "rev-parse"%string \/ cmd = "rev-list"%string
             \/ cmd = "config"%string in
  let internal := Internal a = true \/ UID a = 0 in
  (UID a = 0 ->
   HoneySampleRate cmd (Some a) = HoneySampleRate cmd (Some (mkActor 0 true)))
  /\ (internal -> hot -> HoneySampleRate cmd (Some a) = Some 16384)
  /\ (internal -> ~ hot -> HoneySampleRate cmd (Some a) = Some 16)
  /\ (~ internal -> HoneySampleRate cmd (Some a) = Some 8)
  /\ (forall b r_int r_ext,
         internal -> Internal b = false -> UID b <> 0 ->
         HoneySampleRate cmd (Some a) = Some r_int ->
         HoneySampleRate cmd (Some b) = Some r_ext ->
         r_ext <= r_int).
Proof.
  intros hot internal.
  assert (Hhot : (String.eqb cmd "rev-parse" || String.eqb cmd "rev-list"
                  || String.eqb cmd "config") = true <-> hot).
  { subst hot. rewrite !orb_true_iff, !String.eqb_eq. tauto. }
  assert (Hint : Internal a || (UID a =? 0) = true <-> internal).
  { subst internal. rewrite orb_true_iff, Z.eqb_eq. tauto. }
  rewrite !HoneySampleRate_closed. cbn [UID Internal].
  split; [|split; [|split; [|split]]].
  - intros Huid. rewrite Huid. now rewrite orb_true_r.
  - intros Hi Hh. apply Hint in Hi. apply Hhot in Hh. now rewrite Hi, Hh.
  - intros Hi Hn. apply Hint in Hi. rewrite Hi.
    destruct (String.eqb cmd "rev-parse" || String.eqb cmd "rev-list"
              || String.eqb cmd "config"); [|reflexivity].
    exfalso. apply Hn, Hhot. reflexivity.
  - intros Hn. destruct (Internal a || (UID a =? 0)); [|reflexivity].
    exfalso. apply Hn, Hint. reflexivity.
  - intros b r_int r_ext Hi Hb Hu. apply Hint in Hi.
    rewrite HoneySampleRate_closed, Hi, Hb.
    apply Z.eqb_neq in Hu. rewrite Hu. cbn [orb].
    intros [= <-] [= <-].
    destruct (String.eqb cmd "rev-parse" || String.eqb cmd "rev-list"
              || String.eqb cmd "config"); lia.
Qed.

(** ** The Wait step *)

Lemma checkMaybeCorruptRepo_events (e : env) (repo stderr : string)
    (w : list event) :
  checkMaybeCorruptRepo e repo stderr w
  = (stdErrIndicatesCorruption stderr,
     w ++ if stdErrIndicatesCorruption stderr then markerEvents e else []).
Proof.
  unfold checkMaybeCorruptRepo, markerEvents, bind, emit, when, ret.
  destruct (stdErrIndicatesCorruption stderr); cbn [negb].
  - destruct (configSetErr e); rewrite <- ?app_assoc; reflexivity.
  - now rewrite app_nil_r.
Qed.

Lemma waitCmd_first (e : env) (rc : cmdReader) (w : list event) :
  rc_waitOnce rc = false ->
  waitCmd e rc w = ((waitOutcome e rc, waited e rc), w ++ waitEvents e rc).
Proof.
  intros Hfresh. unfold waitCmd. rewrite Hfresh.
  unfold bind at 1. unfold emit at 1. unfold bind at 1.
  match goal with
  | |- (let '(a, w') := ?X ?w1 in _) = _ =>
      assert (Hc : X w1
                   = (waitOutcome e rc,
                      w1 ++ match waitErr (proc e) with
                            | Some _ =>
                                if stdErrIndicatesCorruption
                                     (string_of_list_byte (capturedStderr e rc))
                                then markerEvents e else []
                            | None => []
                            end))
  end.
  { unfold waitOutcome. fold (capturedStderr e rc).
    destruct (waitErr (proc e)) as [werr|]; [|unfold ret; now rewrite app_nil_r].
    unfold bind. rewrite checkMaybeCorruptRepo_events.
    destruct (stdErrIndicatesCorruption _); reflexivity. }
  rewrite Hc. fold (waited e rc).
  unfold bind at 1. rewrite trace_events.
  unfold bind, emit, ctxCancel, when, ret, waitEvents.
  cbn [rc_subcommand waited].
  destruct (rc_ownsCancel rc); unfold emit, ret; cbv beta iota;
    repeat first [rewrite <- app_assoc | progress cbn [app]];
    rewrite ?app_nil_r; reflexivity.
Qed.

Lemma waitCmd_again (e : env) (rc : cmdReader) (w : list event) :
  rc_waitOnce rc = true -> waitCmd e rc w = ((rc_err rc, rc), w).
Proof. intros Hdone. unfold waitCmd. now rewrite Hdone. Qed.

Lemma osWaits_app (w1 w2 : list event) :
  osWaits (w1 ++ w2) = (osWaits w1 + osWaits w2)%nat.
Proof. unfold osWaits. now rewrite filter_app, length_app. Qed.

Lemma osWaits_sampledEvents (e : env) (rc : cmdReader) :
  osWaits (sampledEvents e rc) = 0%nat.
Proof.
  unfold sampledEvents.
  destruct (honeyEnabled e),
           (sinceStart e >? shortGitCommandSlow (rc_subcommand rc));
    reflexivity.
Qed.

Lemma osWaits_waitEvents (e : env) (rc : cmdReader) :
  osWaits (waitEvents e rc) = 1%nat.
Proof.
  unfold waitEvents, markerEvents.
  rewrite !osWaits_app, osWaits_sampledEvents.
  destruct (waitErr (proc e)), (rc_ownsCancel rc),
           (stdErrIndicatesCorruption
              (string_of_list_byte (capturedStderr e rc))),
           (configSetErr e); reflexivity.
Qed.

(** ** Reads and closes *)

Lemma Read_eof (e : env) (rc : cmdReader) (w : list event) (data : list byte) :
  stdoutAnswer (proc e) (rc_stdoutReads rc) = (data, Some ErrEOF) ->
  Read e rc w
  = let r := waitCmd e (snd (stdoutRead e rc)) w in
    ((data, surfaced (fst (fst r)), snd (fst r)), snd r).
Proof.
  intros Hans. unfold Read, stdoutRead. rewrite Hans. unfold bind.
  destruct (waitCmd _ _ w) as [[o rc'] w']. cbn [fst snd].
  destruct o; reflexivity.
Qed.

Lemma Read_not_eof (e : env) (rc : cmdReader) (w : list event) :
  snd (stdoutAnswer (proc e) (rc_stdoutReads rc)) <> Some ErrEOF ->
  Read e rc w
  = ((stdoutAnswer (proc e) (rc_stdoutReads rc), snd (stdoutRead e rc)), w).
Proof.
  intros Hans. unfold Read, stdoutRead.
  destruct (stdoutAnswer (proc e) (rc_stdoutReads rc)) as [data [[]|]];
    cbn [snd] in *; try reflexivity.
  now contradiction Hans.
Qed.

Lemma doCall_done (e : env) (c : call) (rc : cmdReader) (w : list event) :
  rc_waitOnce rc = true ->
  let r := doCall e c rc w in
  snd r = w
  /\ rc_waitOnce (snd (fst r)) = true
  /\ rc_err (snd (fst r)) = rc_err rc
  /\ agrees (rc_err rc) (fst (fst r)).
Proof.
  intros Hdone. destruct c; cbn [doCall]; unfold bind, ret.
  - destruct (stdoutAnswer (proc e) (rc_stdoutReads rc)) as [data pe] eqn:Hans.
    assert (Hpe : pe = Some ErrEOF \/ pe <> Some ErrEOF).
    { destruct pe as [[]|]; (now left) || (right; discriminate). }
    destruct Hpe as [->|Hne].
    + rewrite (Read_eof e rc w data Hans).
      rewrite waitCmd_again by exact Hdone. cbn. auto.
    + rewrite Read_not_eof by (rewrite Hans; exact Hne). rewrite Hans.
      cbn [fst snd stdoutRead rc_waitOnce rc_err agrees].
      repeat split; try assumption. destruct pe as [[]|]; congruence.
  - unfold Close. rewrite waitCmd_again by exact Hdone. cbn. auto.
Qed.

Lemma run_done (e : env) (cs : list call) :
  forall rc w,
    rc_waitOnce rc = true ->
    let r := run e cs rc w in
    snd r = w
    /\ rc_waitOnce (snd (fst r)) = true
    /\ rc_err (snd (fst r)) = rc_err rc
    /\ Forall (agrees (rc_err rc)) (fst (fst r)).
Proof.
  induction cs as [|c cs IH]; intros rc w Hdone; cbn [run].
  - cbn. auto.
  - unfold bind, ret.
    destruct (doCall_done e c rc w Hdone) as (Hw & Hd & He & Ha).
    destruct (doCall e c rc w) as [[out rc1] w1]. cbn [fst snd] in *. subst w1.
    destruct (IH rc1 w Hd) as (Hw' & Hd' & He' & Ha').
    destruct (run e cs rc1 w) as [[outs rc2] w2]. cbn [fst snd] in *.
    rewrite He in *. repeat split; auto.
Qed.

Lemma doCall_fresh (e : env) (c : call) (rc : cmdReader) (w : list event) :
  rc_waitOnce rc = false ->
  let r := doCall e c rc w in
  agrees (waitOutcome e rc) (fst (fst r))
  /\ (reachesWait (fst (fst r)) = true ->
      osWaits (snd r) = S (osWaits w)
      /\ rc_waitOnce (snd (fst r)) = true
      /\ rc_err (snd (fst r)) = waitOutcome e rc)
  /\ (reachesWait (fst (fst r)) = false ->
      snd r = w
      /\ rc_waitOnce (snd (fst r)) = false
      /\ waitOutcome e (snd (fst r)) = waitOutcome e rc).
Proof.
  intros Hfresh. destruct c; cbn [doCall]; unfold bind, ret.
  - destruct (stdoutAnswer (proc e) (rc_stdoutReads rc)) as [data pe] eqn:Hans.
    assert (Hpe : pe = Some ErrEOF \/ pe <> Some ErrEOF).
    { destruct pe as [[]|]; (now left) || (right; discriminate). }
    destruct Hpe as [->|Hne].
    + rewrite (Read_eof e rc w data Hans).
      rewrite waitCmd_first by exact Hfresh.
      cbn [fst snd reachesWait agrees]. repeat split; try discriminate.
      rewrite osWaits_app, osWaits_waitEvents. lia.
    + rewrite Read_not_eof by (rewrite Hans; exact Hne). rewrite Hans.
      cbn [fst snd]. destruct pe as [[]|]; cbn [reachesWait agrees];
        repeat split; try discriminate; try assumption; congruence.
  - unfold Close. rewrite waitCmd_first by exact Hfresh.
    cbn [fst snd reachesWait agrees]. repeat split; try discriminate.
    rewrite osWaits_app, osWaits_waitEvents. lia.
Qed.

Lemma run_fresh (e : env) (cs : list call) :
  forall rc w,
    rc_waitOnce rc = false ->
    let r := run e cs rc w in
    let reached := existsb reachesWait (fst (fst r)) in
    Forall (agrees (waitOutcome e rc)) (fst (fst r))
    /\ osWaits (snd r) = (osWaits w + if reached then 1 else 0)%nat
    /\ rc_waitOnce (snd (fst r)) = reached
    /\ (reached = true -> rc_err (snd (fst r)) = waitOutcome e rc).
Proof.
  induction cs as [|c cs IH]; intros rc w Hfresh; cbn [run].
  - cbn. repeat split; auto; try lia; try discriminate.
  - unfold bind, ret.
    destruct (doCall_fresh e c rc w Hfresh) as (Ha & Hyes & Hno).
    destruct (doCall e c rc w) as [[out rc1] w1]. cbn [fst snd] in *.
    destruct (reachesWait out) eqn:Hreach.
    + destruct (Hyes eq_refl) as (Hw & Hd & He).
      destruct (run_done e cs rc1 w1 Hd) as (Hw' & Hd' & He' & Ha').
      destruct (run e cs rc1 w1) as [[outs rc2] w2]. cbn [fst snd] in *.
      cbn [existsb]. rewrite Hreach. cbn [orb]. subst w2.
      rewrite He in *. repeat split; auto; try lia; try congruence.
    + destruct (Hno eq_refl) as (Hw & Hd & He). subst w1.
      destruct (IH rc1 w Hd) as (Ha' & Hw' & Hd' & He').
      destruct (run e cs rc1 w) as [[outs rc2] w2]. cbn [fst snd] in *.
      cbn [existsb]. rewrite Hreach. cbn [orb]. rewrite He in *.
      repeat split; auto.
Qed.

Lemma agrees_handedBack (o : option error) (out : outcome) :
  agrees o out ->
  match out with
  | Returned_Close err => err = o
  | Returned_Read pipeErr _ err => err = handedBack o pipeErr
  end.
Proof.
  destruct out as [pe data err|err]; cbn [agrees handedBack]; [|trivial].
  destruct pe as [[]|]; trivial.
Qed.

(** C4 (as amended). Take a reader on which the Wait step has not run and
    any sequence of [Read] and [Close] calls, in whatever order the mutex
    lets them in.  The operating system's wait is invoked once if some call
    reaches the Wait step (a [Close], or a [Read] on which the pipe reports
    end of stream) and not at all otherwise.  Every [Close], the first and the
    later ones alike, returns the one memoized outcome.  A [Read] returns
    what the pipe answered, except that an end of stream is replaced by the
    memoized outcome when that is an error: so a [Read] hands the outcome
    back only when the pipe reports end of stream and the outcome is an
    error.  Once the Wait step has run, further calls add nothing to the log
    (no wait, no marker, no span), and their answers follow the same rule
    with the same memoized outcome, even in an environment [e'] in which the
    context, the process or the collaborators would now answer
    differently. *)
Theorem wait_once_and_memoized (e e' : env) (cs cs' : list call)
    (rc : cmdReader) (w : list event) :
  rc_waitOnce rc = false ->
  let r := run e cs rc w in
  let outs := fst (fst r) in
  let reached := existsb reachesWait outs in
  let r' := run e' cs' (snd (fst r)) (snd r) in
  osWaits (snd r) = (osWaits w + if reached then 1 else 0)%nat
  /\ rc_waitOnce (snd (fst r)) = reached
  /\ (reached = true -> rc_err (snd (fst r)) = waitOutcome e rc)
  /\ (forall err, In (Returned_Close err) outs -> err = waitOutcome e rc)
  /\ (forall pipeErr data err,
         In (Returned_Read pipeErr data err) outs ->
         err = handedBack (waitOutcome e rc) pipeErr)
  /\ (reached = true ->
      snd r' = snd r
      /\ (forall err,
             In (Returned_Close err) (fst (fst r')) -> err = waitOutcome e rc)
      /\ (forall pipeErr data err,
             In (Returned_Read pipeErr data err) (fst (fst r')) ->
             err = handedBack (waitOutcome e rc) pipeErr)).
Proof.
  intros Hfresh r outs reached r'.
  destruct (run_fresh e cs rc w Hfresh) as (Ha & Hw & Hd & He).
  fold r in Ha, Hw, Hd, He. fold outs in Ha, Hw, Hd, He.
  fold reached in Hw, Hd, He.
  rewrite Forall_forall in Ha.
  split; [exact Hw|]. split; [exact Hd|]. split; [exact He|].
  split; [|split].
  - intros err Hin. exact (agrees_handedBack _ _ (Ha _ Hin)).
  - intros pipeErr data err Hin. exact (agrees_handedBack _ _ (Ha _ Hin)).
  - intros Hreached. rewrite Hreached in Hd. specialize (He Hreached).
    destruct (run_done e' cs' (snd (fst r)) (snd r) Hd) as (Hw' & _ & _ & Ha').
    fold r' in Hw', Ha'. rewrite He in Ha'. rewrite Forall_forall in Ha'.
    split; [exact Hw'|]. split.
    + intros err Hin. exact (agrees_handedBack _ _ (Ha' _ Hin)).
    + intros pipeErr data err Hin. exact (agrees_handedBack _ _ (Ha' _ Hin)).
Qed.

(** C4, the claim as stated fails.  [git log HEAD] prints one chunk and
    exits with status 129 after writing "fatal: unknown flag".  The second
    [Read] meets the end of the stream, waits and returns the
    [CommandFailedError]; the wait has closed the pipe, so the trailing third
    [Read] returns the error of the closed file, not the memoized outcome
    that the [Close] after it returns.  The same happens when the process
    exits with status 0: the memoized outcome is nil, the [Read] that meets
    the end of the stream returns the end of stream and the trailing one the
    error of the closed file. *)
Lemma trailing_read_is_not_memoized :
  let failure := CommandFailedError (list_byte_of_string "fatal: unknown flag")
                   129 (ErrExit 129) ["git"; "log"; "HEAD"]%string in
  let e1 := sampleEnv (closingProcess "fatal: unknown flag"
                                      (Some (ErrExit 129)) 129) None in
  let e2 := sampleEnv (closingProcess "" None 0) None in
  (fst (fst (run e1 [CallRead; CallRead; CallRead; CallClose] sampleReader []))
   = [Returned_Read None (list_byte_of_string "commit 1a2b3c") None;
      Returned_Read (Some ErrEOF) [] (Some failure);
      Returned_Read (Some fileAlreadyClosed) [] (Some fileAlreadyClosed);
      Returned_Close (Some failure)]
   /\ Some fileAlreadyClosed <> Some failure)
  /\ (fst (fst (run e2 [CallRead; CallRead; CallRead; CallClose] sampleReader []))
      = [Returned_Read None (list_byte_of_string "commit 1a2b3c") None;
         Returned_Read (Some ErrEOF) [] (Some ErrEOF);
         Returned_Read (Some fileAlreadyClosed) [] (Some fileAlreadyClosed);
         Returned_Close None]
      /\ Some ErrEOF <> (None : option error)
      /\ Some fileAlreadyClosed <> (None : option error)).
Proof.
  cbv zeta. repeat split; try (vm_compute; reflexivity); discriminate.
Qed.

(** ** Classification of a failed wait *)

Lemma waitCmd_outcome (e : env) (rc : cmdReader) (w : list event) :
  rc_waitOnce rc = false ->
  fst (fst (waitCmd e rc w)) = waitOutcome e rc.
Proof. intros Hfresh. now rewrite waitCmd_first. Qed.

(** C1 (as amended). When the wait returns an error and the context of the
    invocation is already canceled as the Wait step runs, the outcome handed
    to the caller, by [Close] or by the [Read] that meets the end of stream,
    is the RepoCorrupted signal if the captured stderr matches a corruption
    pattern, and the cancellation error otherwise: cancellation comes before
    the generic command failure, the corruption check before both. *)
Theorem cancellation_before_generic_failure (e : env) (rc : cmdReader)
    (w : list event) (werr cerr : error) :
  rc_waitOnce rc = false ->
  waitErr (proc e) = Some werr ->
  ctxErr e (rc_ctx rc) = Some cerr ->
  let text := string_of_list_byte (capturedStderr e rc) in
  let expected :=
    if stdErrIndicatesCorruption text then ErrRepoCorrupted text else cerr in
  fst (fst (Close e rc w)) = Some expected
  /\ (forall data,
         stdoutAnswer (proc e) (rc_stdoutReads rc) = (data, Some ErrEOF) ->
         snd (fst (fst (Read e rc w))) = Some expected)
  /\ (stdErrIndicatesCorruption text = false ->
      fst (fst (Close e rc w)) = Some cerr)
  /\ (exists c, cerr = ErrContext c).
Proof.
  intros Hfresh Hwait Hctx text expected.
  assert (Hout : waitOutcome e rc = Some expected).
  { unfold waitOutcome, commandFailedError. rewrite Hwait, Hctx.
    subst expected text. cbv zeta.
    now destruct (stdErrIndicatesCorruption _). }
  split; [|split; [|split]].
  - unfold Close. now rewrite waitCmd_outcome.
  - intros data Hans. rewrite (Read_eof e rc w data Hans).
    rewrite waitCmd_first by exact Hfresh. cbn [fst snd].
    change (waitOutcome e (snd (stdoutRead e rc))) with (waitOutcome e rc).
    now rewrite Hout.
  - intros Hclean. unfold Close.
    rewrite waitCmd_outcome, Hout by exact Hfresh.
    subst expected. now rewrite Hclean.
  - unfold ctxErr in Hctx.
    destruct (rc_ctx rc) as [|d|parent t]; [discriminate| |];
      (destruct (callerCtxErr e) as [ce|]; [|discriminate]);
      exists ce; cbn in Hctx; congruence.
Qed.

(** C1, the claim as stated fails.  [git log HEAD] is launched with a
    context that carries a deadline; the process exits with status 128 after
    writing "error: Could not read abc123" to stderr, and the context is
    canceled by the time the reader is closed.  [Close] returns the
    RepoCorrupted signal, not the cancellation error. *)
Lemma corruption_outranks_cancellation :
  let e := sampleEnv (sampleProcess "error: Could not read abc123"
                                    (Some (ErrExit 128)) 128)
                     (Some Canceled) in
  fst (NewCommand e sampleBackend (CallerContext true) "log"
         [WithArguments [SpecSafeValueArgument "HEAD"]] [])
  = inr sampleReader
  /\ waitErr (proc e) = Some (ErrExit 128)
  /\ ctxErr e (rc_ctx sampleReader) = Some (ErrContext Canceled)
  /\ fst (fst (Close e sampleReader []))
     = Some (ErrRepoCorrupted "error: Could not read abc123")
  /\ fst (fst (Close e sampleReader [])) <> Some (ErrContext Canceled).
Proof.
  cbv zeta. repeat split; try (vm_compute; reflexivity).
  vm_compute. discriminate.
Qed.

Lemma cancellation_before_generic_failure_witness :
  let e := sampleEnv (sampleProcess "fatal: unknown flag"
                                    (Some (ErrExit 129)) 129)
                     (Some Canceled) in
  (rc_waitOnce sampleReader = false
   /\ waitErr (proc e) = Some (ErrExit 129)
   /\ ctxErr e (rc_ctx sampleReader) = Some (ErrContext Canceled))
  /\ fst (fst (Close e sampleReader [])) = Some (ErrContext Canceled).
Proof.
  intros e. split; [repeat split|].
  pose proof (cancellation_before_generic_failure
                e sampleReader [] (ErrExit 129) (ErrContext Canceled)
                eq_refl eq_refl eq_refl) as H.
  cbv zeta in H. destruct H as (_ & _ & H & _).
  apply H. vm_compute. reflexivity.
Defined.

(** ** Corruption marker *)



(** ** Causes of the errors *)

(** C5 (as amended). On a failed wait, the outcome wraps the error of the
    wait, so that [Unwrap] gives it back, when the outcome is the generic
    [CommandFailedError], that is when stderr shows no corruption pattern and
    the context is not canceled.  The RepoCorrupted signal carries the stderr
    text only, and a cancellation outcome is the context's own error: neither
    hands the wait error back.  At launch, a failure of the stdout pipe or of
    the start is returned wrapped around the error of the operating system,
    and a validation error is returned as the builder made it. *)
Theorem generic_failure_wraps_wait_error (e : env) (rc : cmdReader)
    (w : list event) (werr : error)
    (g : gitCLIBackend) (ctx : context) (subcommand : string)
    (optFns : list CommandOptionFunc) :
  rc_waitOnce rc = false ->
  waitErr (proc e) = Some werr ->
  let text := string_of_list_byte (capturedStderr e rc) in
  let o := fst (fst (waitCmd e rc w)) in
  let cause := match o with Some err => Unwrap err | None => None end in
  let built := argsFromArguments subcommand (arguments (optsFromFuncs optFns)) in
  let launched := fst (NewCommand e g ctx subcommand optFns w) in
  (stdErrIndicatesCorruption text = false -> ctxErr e (rc_ctx rc) = None ->
   o = Some (CommandFailedError (capturedStderr e rc) (ExitCode (proc e))
                                werr (Args (rc_cmd rc)))
   /\ cause = Some werr)
  /\ (stdErrIndicatesCorruption text = true ->
      o = Some (ErrRepoCorrupted text) /\ cause = None)
  /\ (stdErrIndicatesCorruption text = false ->
      forall cerr, ctxErr e (rc_ctx rc) = Some cerr ->
                   o = Some cerr /\ cause = None)
  /\ (forall err, built = inl err -> launched = inl err)
  /\ (forall args perr,
         built = inr args -> stdoutPipeErr e = Some perr ->
         exists err, launched = inl err /\ Unwrap err = Some perr)
  /\ (forall args serr,
         built = inr args -> stdoutPipeErr e = None -> startErr e = Some serr ->
         exists err, launched = inl err /\ Unwrap err = Some serr).
Proof.
  intros Hfresh Hwait text o cause built launched.
  assert (Ho : o = waitOutcome e rc) by (apply waitCmd_outcome; exact Hfresh).
  subst cause. rewrite Ho. unfold waitOutcome, commandFailedError.
  rewrite Hwait. cbv zeta. fold text.
  split; [|split; [|split; [|split; [|split]]]].
  - intros Hclean Hctx. rewrite Hclean, Hctx. split; reflexivity.
  - intros Hcorrupt. rewrite Hcorrupt. split; reflexivity.
  - intros Hclean cerr Hctx. rewrite Hclean, Hctx. split; [reflexivity|].
    unfold ctxErr in Hctx.
    destruct (rc_ctx rc) as [|d|parent t]; [discriminate| |];
      (destruct (callerCtxErr e) as [ce|]; [|discriminate]);
      cbn in Hctx; inversion Hctx; reflexivity.
  - intros err Hbuilt. subst launched. unfold NewCommand.
    fold built. now rewrite Hbuilt.
  - intros args perr Hbuilt Hpipe. subst launched. unfold NewCommand.
    fold built. rewrite Hbuilt, Hpipe. unfold bind, emit, ctxCancel, when, ret.
    destruct (negb (hasDeadline ctx)); cbn [fst]; eexists; split; reflexivity.
  - intros args serr Hbuilt Hpipe Hstart. subst launched. unfold NewCommand.
    fold built. rewrite Hbuilt, Hpipe, Hstart.
    unfold bind, emit, ctxCancel, when, ret.
    destruct (negb (hasDeadline ctx)); cbn [fst]; eexists; split; reflexivity.
Qed.

(** C5, the claim as stated fails.  A process exits with status 129 after
    writing "fatal: unknown flag", and the deadline of the context has passed
    when the reader is closed: the outcome is the deadline error, which has
    no cause to unwrap, and the exit error is nowhere in its chain.  The same
    happens with a corruption signal. *)
Lemma wait_error_is_dropped :
  let e1 := sampleEnv (sampleProcess "fatal: unknown flag"
                                     (Some (ErrExit 129)) 129)
                      (Some DeadlineExceeded) in
  let e2 := sampleEnv (sampleProcess "error: Could not read abc123"
                                     (Some (ErrExit 128)) 128)
                      None in
  (waitErr (proc e1) = Some (ErrExit 129)
   /\ fst (fst (waitCmd e1 sampleReader [])) = Some (ErrContext DeadlineExceeded)
   /\ Unwrap (ErrContext DeadlineExceeded) = None
   /\ chain (ErrContext DeadlineExceeded) = [ErrContext DeadlineExceeded])
  /\ (waitErr (proc e2) = Some (ErrExit 128)
      /\ fst (fst (waitCmd e2 sampleReader []))
         = Some (ErrRepoCorrupted "error: Could not read abc123")
      /\ Unwrap (ErrRepoCorrupted "error: Could not read abc123") = None
      /\ chain (ErrRepoCorrupted "error: Could not read abc123")
         = [ErrRepoCorrupted "error: Could not read abc123"]).
Proof. cbv zeta. repeat split; vm_compute; reflexivity. Qed.

Lemma generic_failure_wraps_wait_error_witness :
  let e := sampleEnv (sampleProcess "fatal: unknown flag"
                                    (Some (ErrExit 129)) 129)
                     None in
  (rc_waitOnce sampleReader = false /\ waitErr (proc e) = Some (ErrExit 129))
  /\ fst (fst (waitCmd e sampleReader []))
     = Some (CommandFailedError (list_byte_of_string "fatal: unknown flag") 129
                                (ErrExit 129) ["git"; "log"; "HEAD"]%string)
  /\ match fst (fst (waitCmd e sampleReader [])) with
     | Some err => Unwrap err
     | None => None
     end = Some (ErrExit 129).
Proof.
  intros e. split; [split; reflexivity|].
  pose proof (generic_failure_wraps_wait_error
                e sampleReader [] (ErrExit 129) sampleBackend
                (CallerContext true) "log"
                [WithArguments [SpecSafeValueArgument "HEAD"]]
                eq_refl eq_refl) as H.
  cbv zeta in H. destruct H as (H & _).
  destruct (H eq_refl eq_refl) as (H1 & H2). split; [|exact H2].
  rewrite H1. vm_compute. reflexivity.
Defined.

(** ** Witnesses *)

Lemma wait_once_and_memoized_witness :
  let e := sampleEnv (closingProcess "fatal: unknown flag"
                                     (Some (ErrExit 129)) 129) None in
  let e' := sampleEnv (closingProcess "error: Could not read abc123"
                                      (Some (ErrExit 128)) 128)
                      (Some Canceled) in
  let r := run e [CallRead; CallRead; CallRead] sampleReader [] in
  let r' := run e' [CallClose; CallRead; CallClose] (snd (fst r)) (snd r) in
  rc_waitOnce sampleReader = false
  /\ osWaits (snd r) = 1%nat
  /\ snd r' = snd r
  /\ forall err, In (Returned_Close err) (fst (fst r')) ->
                 err = waitOutcome e sampleReader.
Proof.
  intros e e' r r'. split; [reflexivity|].
  pose proof (wait_once_and_memoized
                e e' [CallRead; CallRead; CallRead]
                [CallClose; CallRead; CallClose] sampleReader [] eq_refl) as H.
  cbv zeta in H. destruct H as (H1 & _ & _ & _ & _ & H6).
  destruct (H6 eq_refl) as (Hlog & Hclose & _).
  split; [exact H1|]. split; [exact Hlog|exact Hclose].
Defined.

Lemma rssToByteSize_normalizes_witness :
  - 2 ^ 63 <= 2048 < 2 ^ 63
  /\ rssToByteSize "darwin" 2048 = 2048
  /\ rssToByteSize "linux" 2048 = 2048 * 1024.
Proof.
  assert (Hrange : - 2 ^ 63 <= 2048 < 2 ^ 63) by (split; vm_compute; congruence).
  split; [exact Hrange|].
  pose proof (rssToByteSize_normalizes
                "linux" 2048
                (sampleEnv (sampleProcess "" None 0) None) sampleReader []
                Hrange) as H.
  destruct H as (H1 & H2 & _). split; [exact H1|].
  apply H2; [discriminate|]. split; vm_compute; congruence.
Defined.

(* ================================================================= *)
(** * Further properties of the package *)

(** ** What a run does to the reader and to the log *)

Lemma doCall_reads (e : env) (c : call) (rc : cmdReader) (w : list event) :
  let r := doCall e c rc w in
  match c with
  | CallRead =>
      rc_stdoutReads (snd (fst r)) = S (rc_stdoutReads rc)
      /\ exists err,
           fst (fst r)
           = Returned_Read (snd (stdoutAnswer (proc e) (rc_stdoutReads rc)))
                           (fst (stdoutAnswer (proc e) (rc_stdoutReads rc))) err
  | CallClose =>
      rc_stdoutReads (snd (fst r)) = rc_stdoutReads rc
      /\ exists err, fst (fst r) = Returned_Close err
  end.
Proof.
  destruct c; cbn [doCall]; unfold bind, ret.
  - destruct (stdoutAnswer (proc e) (rc_stdoutReads rc)) as [data pe] eqn:Hans.
    assert (Hpe : pe = Some ErrEOF \/ pe <> Some ErrEOF).
    { destruct pe as [[]|]; (now left) || (right; discriminate). }
    destruct Hpe as [->|Hne].
    + rewrite (Read_eof e rc w data Hans). cbv zeta.
      destruct (rc_waitOnce rc) eqn:Hw.
      * rewrite waitCmd_again by exact Hw. cbn. eauto.
      * rewrite waitCmd_first by exact Hw. cbn. eauto.
    + rewrite Read_not_eof by (rewrite Hans; exact Hne). rewrite Hans.
      cbn. eauto.
  - unfold Close. destruct (rc_waitOnce rc) eqn:Hw.
    + rewrite waitCmd_again by exact Hw. cbn. eauto.
    + rewrite waitCmd_first by exact Hw. cbn. eauto.
Qed.

Lemma doCall_fresh_events (e : env) (c : call) (rc : cmdReader)
    (w : list event) :
  rc_waitOnce rc = false ->
  let r := doCall e c rc w in
  (reachesWait (fst (fst r)) = true ->
   snd r = w ++ waitEvents e rc
   /\ snd (fst r) = withReads (waited e rc) (rc_stdoutReads (snd (fst r))))
  /\ (reachesWait (fst (fst r)) = false ->
      snd (fst r) = withReads rc (rc_stdoutReads (snd (fst r)))).
Proof.
  intros Hfresh. destruct c; cbn [doCall]; unfold bind, ret.
  - destruct (stdoutAnswer (proc e) (rc_stdoutReads rc)) as [data pe] eqn:Hans.
    assert (Hpe : pe = Some ErrEOF \/ pe <> Some ErrEOF).
    { destruct pe as [[]|]; (now left) || (right; discriminate). }
    destruct Hpe as [->|Hne].
    + rewrite (Read_eof e rc w data Hans).
      rewrite waitCmd_first by exact Hfresh.
      cbn [fst snd reachesWait]. split; [|discriminate].
      intros _. split; reflexivity.
    + rewrite Read_not_eof by (rewrite Hans; exact Hne). rewrite Hans.
      cbn [fst snd]. split.
      * destruct pe as [[]|]; cbn [reachesWait]; try discriminate.
        now contradiction Hne.
      * intros _. reflexivity.
  - unfold Close. rewrite waitCmd_first by exact Hfresh.
    cbn [fst snd reachesWait]. split; [|discriminate].
    intros _. split; reflexivity.
Qed.

Lemma run_done_reader (e : env) (cs : list call) :
  forall rc w,
    rc_waitOnce rc = true ->
    snd (fst (run e cs rc w))
    = withReads rc (rc_stdoutReads (snd (fst (run e cs rc w)))).
Proof.
  induction cs as [|c cs IH]; intros rc w Hdone; cbn [run].
  - destruct rc; reflexivity.
  - unfold bind, ret.
    destruct (doCall_done e c rc w Hdone) as (Hw & Hd & He & _).
    assert (Hrc1 : snd (fst (doCall e c rc w))
                   = withReads rc (rc_stdoutReads (snd (fst (doCall e c rc w))))).
    { destruct c; cbn [doCall]; unfold bind, ret.
      - destruct (stdoutAnswer (proc e) (rc_stdoutReads rc)) as [data pe] eqn:Hans.
        assert (Hpe : pe = Some ErrEOF \/ pe <> Some ErrEOF).
        { destruct pe as [[]|]; (now left) || (right; discriminate). }
        destruct Hpe as [->|Hne].
        + rewrite (Read_eof e rc w data Hans).
          rewrite waitCmd_again by exact Hdone. reflexivity.
        + rewrite Read_not_eof by (rewrite Hans; exact Hne). reflexivity.
      - unfold Close. rewrite waitCmd_again by exact Hdone.
        destruct rc; reflexivity. }
    destruct (doCall e c rc w) as [[out rc1] w1]. cbn [fst snd] in *.
    specialize (IH rc1 w1 Hd).
    destruct (run e cs rc1 w1) as [[outs rc2] w2]. cbn [fst snd] in *.
    rewrite IH. rewrite Hrc1. reflexivity.
Qed.

(** X1. In any run, on a reader in any state, the [Read] calls hand out the
    answers of the stdout pipe one by one and in order, each exactly once,
    with the bytes unchanged: the k-th [Read] returns the bytes of the k-th
    pipe read, whatever [Close] calls come in between and whether or not the
    Wait step has run.  A [Close] reads nothing from the pipe. *)
Theorem reads_follow_the_pipe (e : env) (cs : list call) :
  forall (rc : cmdReader) (w : list event),
    let r := run e cs rc w in
    rc_stdoutReads (snd (fst r)) = (rc_stdoutReads rc + callReads cs)%nat
    /\ dataRead (fst (fst r))
       = map (fun i => fst (stdoutAnswer (proc e) i))
             (seq (rc_stdoutReads rc) (callReads cs)).
Proof.
  induction cs as [|c cs IH]; intros rc w; cbn [run].
  - cbn. split; [lia|reflexivity].
  - unfold bind, ret. pose proof (doCall_reads e c rc w) as Hc.
    destruct (doCall e c rc w) as [[out rc1] w1]. cbn [fst snd] in *.
    specialize (IH rc1 w1).
    destruct (run e cs rc1 w1) as [[outs rc2] w2]. cbn [fst snd] in *.
    destruct IH as (IHn & IHd).
    destruct c; destruct Hc as (Hn & err & ->); unfold callReads in *;
      cbn [filter List.length dataRead flat_map app seq map];
      fold (dataRead outs); rewrite IHd, IHn, Hn.
    + split; [lia|reflexivity].
    + split; reflexivity.
Qed.

Lemma countEv_app (p : event -> bool) (w1 w2 : list event) :
  countEv p (w1 ++ w2) = (countEv p w1 + countEv p w2)%nat.
Proof. unfold countEv. now rewrite filter_app, length_app. Qed.

(** A run on a reader that has not been waited for adds to the log the
    events of one Wait step, at the first call that reaches it, and nothing
    else; the reader it leaves is the one of that Wait step, with the pipe
    reads counted. *)
Lemma run_effects_once (e : env) (cs : list call) :
  forall (rc : cmdReader) (w : list event),
    rc_waitOnce rc = false ->
    let r := run e cs rc w in
    let reached := existsb reachesWait (fst (fst r)) in
    snd r = w ++ (if reached then waitEvents e rc else [])
    /\ snd (fst r)
       = withReads (if reached then waited e rc else rc)
                   (rc_stdoutReads (snd (fst r))).
Proof.
  induction cs as [|c cs IH]; intros rc w Hfresh; cbn [run].
  - cbn. rewrite app_nil_r. split; [reflexivity|]. destruct rc; reflexivity.
  - unfold bind, ret.
    destruct (doCall_fresh e c rc w Hfresh) as (_ & Hyes & Hno).
    destruct (doCall_fresh_events e c rc w Hfresh) as (Hyes' & Hno').
    destruct (doCall e c rc w) as [[out rc1] w1]. cbn [fst snd] in *.
    destruct (reachesWait out) eqn:Hreach.
    + destruct (Hyes eq_refl) as (_ & Hd & _).
      destruct (Hyes' eq_refl) as (Hw1 & Hrc1).
      pose proof (run_done e cs rc1 w1 Hd) as (Hw2 & _).
      pose proof (run_done_reader e cs rc1 w1 Hd) as Hrc2.
      destruct (run e cs rc1 w1) as [[outs rc2] w2]. cbn [fst snd] in *.
      cbn [existsb]. rewrite Hreach. cbn [orb]. subst w2 w1.
      split; [reflexivity|]. rewrite Hrc2, Hrc1. reflexivity.
    + destruct (Hno eq_refl) as (Hw1 & Hd & _). subst w1.
      specialize (Hno' eq_refl).
      remember (rc_stdoutReads rc1) as n1 eqn:Hn1 in Hno'. subst rc1.
      destruct (IH (withReads rc n1) w Hd) as (IHw & IHrc).
      destruct (run e cs (withReads rc n1) w) as [[outs rc2] w2].
      cbn [fst snd] in *. cbn [existsb]. rewrite Hreach. cbn [orb].
      split; [exact IHw|].
      rewrite IHrc. destruct (existsb reachesWait outs); reflexivity.
Qed.

(** ** The events of the Wait step, counted *)

Ltac count_waitEvents :=
  unfold countEv, waitEvents, markerEvents, sampledEvents;
  repeat match goal with
         | |- context [match ?b with _ => _ end] =>
             lazymatch b with
             | waitErr _ => destruct b
             | configSetErr _ => destruct b
             | stdErrIndicatesCorruption _ => destruct b
             | honeyEnabled _ => destruct b
             | rc_ownsCancel _ => destruct b
             | (_ >? _) => destruct b
             end
         end;
  reflexivity.

Lemma waitEvents_traceEnd (e : env) (rc : cmdReader) :
  filter isTraceEnd (waitEvents e rc) = [EvTraceEnd (waitOutcome e rc)].
Proof. count_waitEvents. Qed.

Lemma waitEvents_traceNew (e : env) (rc : cmdReader) :
  countEv isTraceNew (waitEvents e rc) = 0%nat.
Proof. count_waitEvents. Qed.

Lemma waitEvents_ctxCancel (e : env) (rc : cmdReader) :
  countEv isCtxCancel (waitEvents e rc)
  = (if rc_ownsCancel rc then 1 else 0)%nat.
Proof. count_waitEvents. Qed.

Lemma waitEvents_launches (e : env) (rc : cmdReader) :
  launches (waitEvents e rc) = [].
Proof. unfold launches. count_waitEvents. Qed.

Lemma waitEvents_configSet (e : env) (rc : cmdReader) :
  filter isConfigSet (waitEvents e rc)
  = match waitErr (proc e) with
    | Some _ =>
        if stdErrIndicatesCorruption (string_of_list_byte (capturedStderr e rc))
        then [EvConfigSet Background gitConfigMaybeCorrupt
                          (FormatInt (unixNow e))]
        else []
    | None => []
    end.
Proof. count_waitEvents. Qed.

Lemma waitEvents_execRunning (e : env) (rc : cmdReader) (s : string) :
  execRunning s (waitEvents e rc)
  = if String.eqb (rc_subcommand rc) s then -1 else 0.
Proof.
  unfold execRunning, countEv, waitEvents, markerEvents, sampledEvents.
  rewrite !filter_app, !length_app.
  cbn [filter isRunningInc isRunningDec List.length].
  destruct (String.eqb (rc_subcommand rc) s);
    repeat match goal with
           | |- context [match ?b with _ => _ end] =>
               lazymatch b with
               | waitErr _ => destruct b
               | configSetErr _ => destruct b
               | stdErrIndicatesCorruption _ => destruct b
               | honeyEnabled _ => destruct b
               | rc_ownsCancel _ => destruct b
               | (_ >? _) => destruct b
               end
           end;
    reflexivity.
Qed.

(** ** Launch *)

Lemma NewCommand_built (e : env) (g : gitCLIBackend) (ctx : context)
    (subcommand : string) (optFns : list CommandOptionFunc) (w : list event)
    (args : list string) :
  argsFromArguments subcommand (arguments (optsFromFuncs optFns)) = inr args ->
  let opts := optsFromFuncs optFns in
  let cmd := commandFor e g (launchContext ctx) opts args in
  let cancel := if negb (hasDeadline ctx) then [EvCtxCancel] else [] in
  NewCommand e g ctx subcommand optFns w
  = match stdoutPipeErr e with
    | Some perr =>
        let err := ErrWrap perr "failed to create stdout pipe" in
        (inl err,
         w ++ [EvTraceNew args (dir g)] ++ cancel ++ [EvTraceEnd (Some err)])
    | None =>
        match startErr e with
        | Some serr =>
            let err := ErrWrap serr "failed to start git process" in
            (inl err,
             w ++ [EvTraceNew args (dir g); EvStart cmd] ++ cancel
               ++ [EvTraceEnd (Some err)])
        | None =>
            (inr (launchedReader e g ctx subcommand opts args),
             w ++ [EvTraceNew args (dir g); EvStart cmd;
                   EvExecRunningInc subcommand])
        end
    end.
Proof.
  intros Hbuilt opts cmd cancel. unfold NewCommand. cbv zeta. rewrite Hbuilt.
  unfold bind, emit, ctxCancel, when, ret. subst cancel cmd opts.
  unfold launchedReader, launchContext, commandFor, freshCommand.
  destruct (stdoutPipeErr e) as [perr|]; [|destruct (startErr e) as [serr|]];
    destruct (hasDeadline ctx); cbn [negb]; unfold emit, ret; cbv beta iota;
    repeat first [rewrite <- app_assoc | progress cbn [app]];
    reflexivity.
Qed.

Lemma NewCommand_returns_reader (e : env) (g : gitCLIBackend) (ctx : context)
    (subcommand : string) (optFns : list CommandOptionFunc) (w : list event)
    (rc : cmdReader) :
  fst (NewCommand e g ctx subcommand optFns w) = inr rc ->
  exists args,
    argsFromArguments subcommand (arguments (optsFromFuncs optFns)) = inr args
    /\ stdoutPipeErr e = None /\ startErr e = None
    /\ rc = launchedReader e g ctx subcommand (optsFromFuncs optFns) args
    /\ snd (NewCommand e g ctx subcommand optFns w)
       = w ++ [EvTraceNew args (dir g);
               EvStart (commandFor e g (launchContext ctx)
                                   (optsFromFuncs optFns) args);
               EvExecRunningInc subcommand].
Proof.
  intros Hrc.
  destruct (argsFromArguments subcommand (arguments (optsFromFuncs optFns)))
    as [err|args] eqn:Hbuilt.
  - unfold NewCommand in Hrc. rewrite Hbuilt in Hrc. discriminate.
  - rewrite (NewCommand_built e g ctx subcommand optFns w args Hbuilt) in *.
    cbv zeta in *. exists args.
    destruct (stdoutPipeErr e); [discriminate|].
    destruct (startErr e); [discriminate|].
    cbn [fst snd] in *. inversion Hrc. auto.
Qed.

Lemma launches_app (w1 w2 : list event) :
  launches (w1 ++ w2) = launches w1 ++ launches w2.
Proof. unfold launches. apply flat_map_app. Qed.

Lemma execRunning_app (subcommand : string) (w1 w2 : list event) :
  execRunning subcommand (w1 ++ w2)
  = execRunning subcommand w1 + execRunning subcommand w2.
Proof. unfold execRunning. rewrite !countEv_app. lia. Qed.

Lemma argsFromArguments_error_is_validation (subcommand : string)
    (args : list Argument) (err : error) :
  argsFromArguments subcommand args = inl err -> isValidationError err = true.
Proof.
  unfold argsFromArguments. intros H.
  destruct (forallb accepted args) eqn:Hacc.
  - rewrite (argsLoop_accepted args [] [] Hacc) in H. discriminate.
  - destruct (argsLoop_rejected args [] [] Hacc) as (err' & Hloop & Hval).
    rewrite Hloop in H. inversion H. subst. exact Hval.
Qed.

(** X2. The one process that a successful [NewCommand] starts is made by
    [exec.CommandContext] on a context that has a deadline: the caller's
    context itself when that has one, and otherwise a timeout of one minute
    around it.  The same context is the one the reader keeps and asks for
    its error in the Wait step.  The reader owns the cancel function of the
    timeout exactly when [NewCommand] installed one, and its Wait step, under
    whatever circumstances it runs, calls it once.  The reader starts out
    unwaited, with no memoized error, no pipe read made and an empty stderr
    capture of 1024 bytes. *)
Theorem NewCommand_bounds_every_invocation (e : env) (g : gitCLIBackend)
    (ctx : context) (subcommand : string) (optFns : list CommandOptionFunc)
    (w : list event) (rc : cmdReader) :
  fst (NewCommand e g ctx subcommand optFns w) = inr rc ->
  launches (snd (NewCommand e g ctx subcommand optFns w))
  = launches w ++ [rc_cmd rc]
  /\ Ctx (rc_cmd rc) = rc_ctx rc
  /\ hasDeadline (Ctx (rc_cmd rc)) = true
  /\ (hasDeadline ctx = true ->
      Ctx (rc_cmd rc) = ctx /\ rc_ownsCancel rc = false)
  /\ (hasDeadline ctx = false ->
      Ctx (rc_cmd rc) = WithTimeout ctx (60 * 1000000000)
      /\ rc_ownsCancel rc = true)
  /\ (forall e' w',
         countEv isCtxCancel (snd (Close e' rc w'))
         = (countEv isCtxCancel w' + if hasDeadline ctx then 0 else 1)%nat)
  /\ rc_waitOnce rc = false /\ rc_err rc = None /\ rc_stdoutReads rc = 0%nat
  /\ rc_stderr rc = limitWriter.mk [] 1024
  /\ rc_subcommand rc = subcommand.
Proof.
  intros Hrc.
  destruct (NewCommand_returns_reader _ _ _ _ _ _ _ Hrc)
    as (args & _ & _ & _ & -> & Hw).
  rewrite Hw, launches_app. split; [reflexivity|].
  split; [reflexivity|].
  assert (Hclose : forall e' w',
             countEv isCtxCancel
               (snd (Close e' (launchedReader e g ctx subcommand
                                 (optsFromFuncs optFns) args) w'))
             = (countEv isCtxCancel w'
                + if hasDeadline ctx then 0 else 1)%nat).
  { intros e' w'. unfold Close. rewrite waitCmd_first by reflexivity.
    cbn [snd]. rewrite countEv_app, waitEvents_ctxCancel.
    cbn [launchedReader rc_ownsCancel]. now destruct (hasDeadline ctx). }
  unfold launchedReader, launchContext, commandFor in *.
  cbn [rc_ctx rc_cmd Ctx rc_ownsCancel rc_waitOnce rc_err rc_stdoutReads
       rc_stderr rc_subcommand] in *.
  destruct (hasDeadline ctx) eqn:Hd; cbn [hasDeadline negb];
    repeat split; try reflexivity; try assumption; try discriminate;
    try exact Hclose; intros; discriminate.
Qed.

Lemma NewCommand_bounds_every_invocation_witness :
  let e := sampleEnv (sampleProcess "" None 0) None in
  let r := NewCommand e sampleBackend Background "log"
             [WithArguments [SpecSafeValueArgument "HEAD"]] [] in
  exists rc,
    fst r = inr rc
    /\ launches (snd r) = [rc_cmd rc]
    /\ Ctx (rc_cmd rc) = WithTimeout Background (60 * 1000000000)
    /\ rc_ownsCancel rc = true.
Proof.
  intros e r.
  exists (launchedReader e sampleBackend Background "log"
            (optsFromFuncs [WithArguments [SpecSafeValueArgument "HEAD"]])
            ["log"; "HEAD"]%string).
  assert (H : fst r = inr (launchedReader e sampleBackend Background "log"
                (optsFromFuncs [WithArguments [SpecSafeValueArgument "HEAD"]])
                ["log"; "HEAD"]%string)) by reflexivity.
  split; [exact H|].
  destruct (NewCommand_bounds_every_invocation _ _ _ _ _ _ _ H)
    as (Hlaunch & _ & _ & _ & Hno & _).
  split; [exact Hlaunch|]. exact (Hno eq_refl).
Defined.

(** X3. When [NewCommand] returns a reader it has started exactly one
    process.  The command is what [g.dir.Set] made of the command
    [exec.CommandContext] built for [git] and the tokens of the builder
    (override pairs, subcommand, other arguments), with two changes: when the
    options carry an environment, [Env] is replaced by the inherited
    environment followed by the given variables, so that nothing [g.dir.Set]
    had put into the environment is left; and when they carry a stdin, it is
    the stdin of the command.  Without [WithEnv] the environment is the one
    [g.dir.Set] left.  The running gauge of the subcommand is one higher, the
    gauges of the other subcommands are unchanged. *)
Theorem NewCommand_starts_the_built_command (e : env) (g : gitCLIBackend)
    (ctx : context) (subcommand : string) (optFns : list CommandOptionFunc)
    (w : list event) (rc : cmdReader) :
  fst (NewCommand e g ctx subcommand optFns w) = inr rc ->
  let opts := optsFromFuncs optFns in
  let w' := snd (NewCommand e g ctx subcommand optFns w) in
  let made :=
    dirSet g {| Args := ["git"%string] ++ configTokens (arguments opts)
                          ++ [subcommand] ++ otherTokens (arguments opts);
                Ctx := rc_ctx rc;
                Dir := EmptyString;
                Env := [];
                Stdin := None |} in
  Args (rc_cmd rc) = Args made
  /\ Dir (rc_cmd rc) = Dir made
  /\ (opt_env opts = [] -> Env (rc_cmd rc) = Env made)
  /\ (opt_env opts <> [] -> Env (rc_cmd rc) = osEnviron e ++ opt_env opts)
  /\ (opt_stdin opts = None -> Stdin (rc_cmd rc) = Stdin made)
  /\ (forall stdin, opt_stdin opts = Some stdin ->
                    Stdin (rc_cmd rc) = Some stdin)
  /\ launches w' = launches w ++ [rc_cmd rc]
  /\ execRunning subcommand w' = execRunning subcommand w + 1
  /\ (forall other, other <> subcommand ->
                    execRunning other w' = execRunning other w).
Proof.
  intros Hrc opts w' made.
  destruct (NewCommand_returns_reader _ _ _ _ _ _ _ Hrc)
    as (args & Hbuilt & _ & _ & -> & Hw).
  subst w' made. rewrite Hw. fold opts in Hbuilt |- *.
  assert (Hargs : args = configTokens (arguments opts) ++ [subcommand]
                           ++ otherTokens (arguments opts)).
  { unfold argsFromArguments in Hbuilt.
    destruct (argsLoop (arguments opts) [] []) as [err|[cf fl]] eqn:Hloop;
      [discriminate|].
    rewrite (argsLoop_accepted _ [] [] (argsLoop_inr _ _ _ _ Hloop)) in Hloop.
    inversion Hloop; subst. now inversion Hbuilt. }
  clear Hbuilt Hrc. subst args.
  cbn [rc_cmd rc_ctx launchedReader commandFor Args Dir Stdin Env].
  unfold freshCommand. cbn [app].
  rewrite launches_app, execRunning_app.
  repeat split.
  - intros Hnone. now rewrite Hnone.
  - intros Hsome. destruct (opt_env opts); [contradiction|reflexivity].
  - intros Hnone. now rewrite Hnone.
  - intros stdin Hsome. now rewrite Hsome.
  - unfold execRunning, countEv. cbn [filter isRunningInc isRunningDec].
    rewrite String.eqb_refl. cbn [List.length]. lia.
  - intros other Hother. rewrite execRunning_app.
    unfold execRunning at 2, countEv. cbn [filter isRunningInc isRunningDec].
    apply String.eqb_neq in Hother. rewrite String.eqb_sym, Hother.
    cbn [List.length]. lia.
Qed.

Lemma NewCommand_starts_the_built_command_witness :
  let e := sampleEnv (sampleProcess "" None 0) None in
  let r := NewCommand e sampleBackend (CallerContext true) "fetch"
             [WithArguments [ConfigArgument "protocol.version" "2";
                             FlagArgument "--prune";
                             SpecSafeValueArgument "origin"];
              WithEnv ["GIT_TERMINAL_PROMPT=0"%string]] [] in
  exists rc,
    fst r = inr rc
    /\ Args (rc_cmd rc)
       = ["git"; "-c"; "protocol.version=2"; "fetch"; "--prune"; "origin"]%string
    /\ Env (rc_cmd rc) = ["PATH=/usr/bin"; "GIT_TERMINAL_PROMPT=0"]%string
    /\ launches (snd r) = [rc_cmd rc].
Proof.
  intros e r.
  destruct (fst r) as [err|rc] eqn:Hr; [vm_compute in Hr; discriminate|].
  exists rc. split; [reflexivity|].
  destruct (NewCommand_starts_the_built_command _ _ _ _ _ _ _ Hr)
    as (Hargs & _ & _ & Henv & _ & _ & Hlaunch & _).
  split; [exact Hargs|]. split; [|exact Hlaunch].
  apply Henv. discriminate.
Defined.

(** X4. When [NewCommand] returns an error it leaves nothing behind.  The
    running gauges are unchanged.  A validation error is returned before
    anything happens at all.  After a failure of the stdout pipe or of the
    start, the span that was opened is ended, with the error that is
    returned; the timeout is cancelled if one had been installed; and at most
    one start was attempted. *)
Theorem NewCommand_failure_leaves_nothing (e : env) (g : gitCLIBackend)
    (ctx : context) (subcommand : string) (optFns : list CommandOptionFunc)
    (w : list event) (err : error) :
  fst (NewCommand e g ctx subcommand optFns w) = inl err ->
  exists evs,
    snd (NewCommand e g ctx subcommand optFns w) = w ++ evs
    /\ (forall s, execRunning s evs = 0)
    /\ (isValidationError err = true -> evs = [])
    /\ (isValidationError err = false ->
        countEv isTraceNew evs = 1%nat
        /\ filter isTraceEnd evs = [EvTraceEnd (Some err)]
        /\ countEv isCtxCancel evs = (if hasDeadline ctx then 0 else 1)%nat
        /\ exists cause, Unwrap err = Some cause)
    /\ (List.length (launches evs) <= 1)%nat.
Proof.
  intros Herr.
  destruct (argsFromArguments subcommand (arguments (optsFromFuncs optFns)))
    as [verr|args] eqn:Hbuilt.
  - assert (Hval := argsFromArguments_error_is_validation _ _ _ Hbuilt).
    unfold NewCommand in *. rewrite Hbuilt in *. cbn in Herr.
    inversion Herr; subst verr. exists []. cbn. rewrite app_nil_r.
    repeat split; auto; congruence.
  - rewrite (NewCommand_built e g ctx subcommand optFns w args Hbuilt) in *.
    cbv zeta in *.
    destruct (stdoutPipeErr e) as [perr|];
      [|destruct (startErr e) as [serr|]; [|discriminate]];
      cbn [fst snd] in *; inversion Herr; subst err; eexists;
      (split; [reflexivity|]);
      destruct (hasDeadline ctx); cbn;
      repeat split; try reflexivity; try discriminate; try lia; eauto.
Qed.

Lemma NewCommand_failure_leaves_nothing_witness :
  let e := {| GOOS := "linux"; unixNow := 1700000000; callerCtxErr := None;
              configSetErr := None; honeyEnabled := false; sinceStart := 0;
              actorFromContext := mkActor 1 false; osEnviron := [];
              stdoutPipeErr := None;
              startErr := Some (ErrOS "fork/exec: resource temporarily unavailable");
              proc := sampleProcess "" None 0 |} in
  let r := NewCommand e sampleBackend Background "log" [] [EvExecRunningInc "log"] in
  fst r = inl (ErrWrap (ErrOS "fork/exec: resource temporarily unavailable")
                       "failed to start git process")
  /\ exists evs, snd r = [EvExecRunningInc "log"] ++ evs
                 /\ execRunning "log" evs = 0
                 /\ countEv isCtxCancel evs = 1%nat.
Proof.
  intros e r.
  assert (H : fst r = inl (ErrWrap (ErrOS "fork/exec: resource temporarily unavailable")
                                   "failed to start git process"))
    by reflexivity.
  split; [exact H|].
  destruct (NewCommand_failure_leaves_nothing _ _ _ _ _ _ _ H)
    as (evs & Hw & Hgauge & _ & Hlaunch & _).
  exists evs. split; [exact Hw|]. split; [apply Hgauge|].
  destruct (Hlaunch eq_refl) as (_ & _ & Hcancel & _). exact Hcancel.
Defined.

(** ** An invocation from launch to wait *)

(** X5. Follow a reader from the [NewCommand] that returned it through any
    sequence of [Read] and [Close] calls.  If some call reaches the Wait step,
    the running gauge of the subcommand is back at its value from before the
    launch, the span is ended once, with the memoized outcome, and the
    timeout that [NewCommand] installed (if it did) is cancelled once.  If no
    call reaches it, the gauge stays one higher, the span stays open and the
    timeout is not cancelled.  Either way the run starts no further process
    and opens no further span. *)
Theorem invocation_lifecycle (e : env) (g : gitCLIBackend) (ctx : context)
    (subcommand : string) (optFns : list CommandOptionFunc) (w : list event)
    (rc : cmdReader) (cs : list call) :
  fst (NewCommand e g ctx subcommand optFns w) = inr rc ->
  let r := run e cs rc (snd (NewCommand e g ctx subcommand optFns w)) in
  let reached := existsb reachesWait (fst (fst r)) in
  exists evs,
    snd r = w ++ evs
    /\ execRunning subcommand evs = (if reached then 0 else 1)
    /\ countEv isTraceNew evs = 1%nat
    /\ filter isTraceEnd evs
       = (if reached then [EvTraceEnd (waitOutcome e rc)] else [])
    /\ countEv isCtxCancel evs
       = (if reached && negb (hasDeadline ctx) then 1 else 0)%nat
    /\ launches evs = [rc_cmd rc].
Proof.
  intros Hrc r reached.
  destruct (NewCommand_returns_reader _ _ _ _ _ _ _ Hrc)
    as (args & _ & _ & _ & Hreader & Hw).
  assert (Hfresh : rc_waitOnce rc = false) by (subst rc; reflexivity).
  destruct (run_effects_once
              e cs rc (snd (NewCommand e g ctx subcommand optFns w)) Hfresh)
    as (Hevs & _).
  fold r in Hevs. fold reached in Hevs. rewrite Hw in Hevs.
  rewrite <- app_assoc in Hevs. eexists. split; [exact Hevs|].
  rewrite execRunning_app, !countEv_app, !filter_app, launches_app.
  assert (Hsub : rc_subcommand rc = subcommand) by (subst rc; reflexivity).
  assert (Hown : rc_ownsCancel rc = negb (hasDeadline ctx))
    by (subst rc; reflexivity).
  assert (Hcmd : rc_cmd rc = commandFor e g (launchContext ctx)
                                        (optsFromFuncs optFns) args)
    by (subst rc; reflexivity).
  destruct reached.
  - rewrite waitEvents_execRunning, waitEvents_traceNew, waitEvents_traceEnd,
      waitEvents_ctxCancel, waitEvents_launches, Hsub, Hown, Hcmd.
    unfold execRunning, countEv.
    cbn [filter isRunningInc isRunningDec isTraceNew isTraceEnd isCtxCancel
         launches flat_map app List.length andb].
    rewrite String.eqb_refl. cbn [List.length]. repeat split; lia.
  - rewrite Hcmd. unfold execRunning, countEv.
    cbn [filter isRunningInc isRunningDec isTraceNew isTraceEnd isCtxCancel
         launches flat_map app List.length andb].
    rewrite String.eqb_refl. cbn [List.length]. repeat split; lia.
Qed.

Lemma invocation_lifecycle_witness :
  let e := sampleEnv (sampleProcess "fatal: unknown flag"
                                    (Some (ErrExit 129)) 129) None in
  let launch := NewCommand e sampleBackend Background "log"
                  [WithArguments [SpecSafeValueArgument "HEAD"]] [] in
  exists rc,
    fst launch = inr rc
    /\ exists evs,
         snd (run e [CallRead; CallRead; CallClose] rc (snd launch)) = [] ++ evs
         /\ execRunning "log" evs = 0
         /\ countEv isCtxCancel evs = 1%nat.
Proof.
  intros e launch.
  destruct (fst launch) as [err|rc] eqn:Hr; [vm_compute in Hr; discriminate|].
  exists rc. split; [reflexivity|].
  destruct (invocation_lifecycle e sampleBackend Background "log"
              [WithArguments [SpecSafeValueArgument "HEAD"]] [] rc
              [CallRead; CallRead; CallClose] Hr)
    as (evs & Hw & Hgauge & _ & _ & Hcancel & _).
  exists evs. split; [exact Hw|].
  assert (Hrc : rc = launchedReader e sampleBackend Background "log"
                       (optsFromFuncs [WithArguments [SpecSafeValueArgument "HEAD"]])
                       ["log"; "HEAD"]%string).
  { vm_compute in Hr. inversion Hr. reflexivity. }
  clear Hr Hw. subst rc.
  match type of Hgauge with
  | _ = (if ?b then _ else _) =>
      assert (Hreached : b = true) by (vm_compute; reflexivity);
      rewrite Hreached in Hgauge, Hcancel
  end.
  split; [exact Hgauge|exact Hcancel].
Defined.

(** X6. Over any sequence of [Read] and [Close] calls on a reader that has
    not been waited for, the corruption marker is written at most once: once,
    with the key sourcegraph.maybeCorruptRepo, the time of the write as value
    and the background context, if some call reaches the Wait step, the wait
    returned an error and the captured stderr matches a corruption pattern;
    and not at all otherwise. *)
Theorem marker_written_at_most_once (e : env) (cs : list call)
    (rc : cmdReader) (w : list event) :
  rc_waitOnce rc = false ->
  let r := run e cs rc w in
  let reached := existsb reachesWait (fst (fst r)) in
  let failed := match waitErr (proc e) with Some _ => true | None => false end in
  let corrupt :=
    stdErrIndicatesCorruption (string_of_list_byte (capturedStderr e rc)) in
  exists evs,
    snd r = w ++ evs
    /\ filter isConfigSet evs
       = if reached && failed && corrupt
         then [EvConfigSet Background "sourcegraph.maybeCorruptRepo"
                           (FormatInt (unixNow e))]
         else [].
Proof.
  intros Hfresh r reached failed corrupt.
  destruct (run_effects_once e cs rc w Hfresh) as (Hevs & _).
  fold r in Hevs. fold reached in Hevs.
  eexists. split; [exact Hevs|].
  destruct reached; [|reflexivity].
  rewrite waitEvents_configSet. subst failed corrupt.
  destruct (waitErr (proc e)); [|reflexivity].
  destruct (stdErrIndicatesCorruption _); reflexivity.
Qed.

Lemma marker_written_at_most_once_witness :
  let e := sampleEnv (sampleProcess "error: Could not read abc123"
                                    (Some (ErrExit 128)) 128) None in
  rc_waitOnce sampleReader = false
  /\ exists evs,
       snd (run e [CallClose; CallRead; CallRead; CallClose] sampleReader [])
       = [] ++ evs
       /\ filter isConfigSet evs
          = [EvConfigSet Background "sourcegraph.maybeCorruptRepo" "1700000000"].
Proof.
  intros e. split; [reflexivity|].
  destruct (marker_written_at_most_once
              e [CallClose; CallRead; CallRead; CallClose] sampleReader []
              eq_refl) as (evs & Hw & Hset).
  exists evs. split; [exact Hw|]. exact Hset.
Defined.

(** X7. When the wait returns no error (the process exited with status 0),
    the reader is transparent: over any sequence of calls every [Read]
    returns exactly what the stdout pipe answered, bytes and error, the end
    of stream included, and every [Close] returns nil.  This holds whatever
    stderr holds and whether or not the context has been canceled, and no
    corruption marker is written. *)
Theorem successful_exit_is_transparent (e : env) (cs : list call)
    (rc : cmdReader) (w : list event) :
  rc_waitOnce rc = false ->
  waitErr (proc e) = None ->
  let r := run e cs rc w in
  Forall (fun o => match o with
                   | Returned_Read pipeErr _ err => err = pipeErr
                   | Returned_Close err => err = None
                   end) (fst (fst r))
  /\ exists evs, snd r = w ++ evs /\ filter isConfigSet evs = [].
Proof.
  intros Hfresh Hwait r.
  assert (Hout : waitOutcome e rc = None)
    by (unfold waitOutcome; now rewrite Hwait).
  destruct (run_fresh e cs rc w Hfresh) as (Hagree & _).
  destruct (run_effects_once e cs rc w Hfresh) as (Hevs & _).
  fold r in Hagree, Hevs. rewrite Hout in *.
  split.
  - eapply Forall_impl; [|exact Hagree].
    intros [pe data err|err] Ha; cbn [agrees] in Ha; [|exact Ha].
    destruct pe as [[]|]; exact Ha.
  - eexists. split; [exact Hevs|].
    destruct (existsb reachesWait (fst (fst r))); [|reflexivity].
    rewrite waitEvents_configSet, Hwait. reflexivity.
Qed.

Lemma successful_exit_is_transparent_witness :
  let e := sampleEnv (sampleProcess "error: Could not read abc123" None 0)
                     (Some Canceled) in
  (rc_waitOnce sampleReader = false /\ waitErr (proc e) = None)
  /\ Forall (fun o => match o with
                      | Returned_Read pipeErr _ err => err = pipeErr
                      | Returned_Close err => err = None
                      end)
            [Returned_Read None (list_byte_of_string "commit 1a2b3c") None;
             Returned_Read (Some ErrEOF) [] (Some ErrEOF);
             Returned_Close None].
Proof.
  intros e. split; [split; reflexivity|].
  exact (proj1 (successful_exit_is_transparent
                  e [CallRead; CallRead; CallClose] sampleReader []
                  eq_refl eq_refl)).
Defined.

(** ** What a failure carries *)

Lemma capturedStderr_of_launch (e : env) (rc : cmdReader) :
  rc_stderr rc = stderrBuffer ->
  capturedStderr e rc = firstn 1024 (List.concat (stderrWrites (proc e))).
Proof.
  intros Hbuf. unfold capturedStderr. rewrite Hbuf.
  rewrite (writeAll_limitWriter _ stderrBuffer) by (cbv; discriminate).
  reflexivity.
Qed.

(** X8. For a reader as [NewCommand] returns it (unwaited, with the empty
    stderr capture), the outcome of [Close] is of exactly one of four kinds,
    and which one is decided as follows.  Nil: the wait returned no error.
    RepoCorrupted: it returned one and the captured stderr matches; the
    reason is the captured text.  A context error: no match, and the context
    is canceled.  CommandFailedError: no match, context not canceled; it
    carries the captured stderr, the exit code, the wait error and the
    argument list of the command.  The captured stderr is the first 1024
    bytes the process wrote to stderr, so no outcome carries more. *)
Theorem close_outcome_kinds (e : env) (rc : cmdReader) (w : list event) :
  rc_waitOnce rc = false ->
  rc_stderr rc = stderrBuffer ->
  let captured := firstn 1024 (List.concat (stderrWrites (proc e))) in
  let corrupt := stdErrIndicatesCorruption (string_of_list_byte captured) in
  len captured <= 1024
  /\ match fst (fst (Close e rc w)) with
     | None => waitErr (proc e) = None
     | Some (ErrRepoCorrupted reason) =>
         reason = string_of_list_byte captured
         /\ corrupt = true /\ waitErr (proc e) <> None
     | Some (ErrContext c) =>
         ctxErr e (rc_ctx rc) = Some (ErrContext c)
         /\ corrupt = false /\ waitErr (proc e) <> None
     | Some (CommandFailedError stderr code inner cmdArgs) =>
         stderr = captured /\ code = ExitCode (proc e)
         /\ waitErr (proc e) = Some inner /\ cmdArgs = Args (rc_cmd rc)
         /\ corrupt = false /\ ctxErr e (rc_ctx rc) = None
     | Some _ => False
     end.
Proof.
  intros Hfresh Hbuf captured corrupt. split.
  - subst captured. unfold len. rewrite length_firstn. lia.
  - unfold Close. rewrite waitCmd_outcome by exact Hfresh.
    unfold waitOutcome. rewrite (capturedStderr_of_launch e rc Hbuf).
    fold captured. cbv zeta. fold corrupt.
    destruct (waitErr (proc e)) as [werr|]; [|reflexivity].
    destruct corrupt.
    + repeat split; congruence.
    + unfold commandFailedError, ctxErr.
      destruct (rc_ctx rc) as [|d|parent t];
        [repeat split; reflexivity| |];
        (destruct (callerCtxErr e) as [c|]; cbn [option_map];
         repeat split; congruence).
Qed.

Lemma close_outcome_kinds_witness :
  let e := sampleEnv (sampleProcess "fatal: unknown flag"
                                    (Some (ErrExit 129)) 129) None in
  (rc_waitOnce sampleReader = false /\ rc_stderr sampleReader = stderrBuffer)
  /\ match fst (fst (Close e sampleReader [])) with
     | Some (CommandFailedError stderr code inner cmdArgs) =>
         stderr = list_byte_of_string "fatal: unknown flag" /\ code = 129
     | _ => False
     end.
Proof.
  intros e. split; [split; reflexivity|].
  pose proof (close_outcome_kinds e sampleReader [] eq_refl eq_refl) as H.
  cbv zeta in H. destruct H as (_ & H).
  destruct (fst (fst (Close e sampleReader []))) as [[]|] eqn:Hc;
    try (vm_compute in Hc; discriminate).
  destruct H as (H1 & H2 & _). split; [exact H1|exact H2].
Defined.

(** ** What [trace] reports *)

Lemma shortGitCommandSlow_bounds (subcommand : string) :
  2500 * Millisecond <= shortGitCommandSlow subcommand <= 1 * Minute.
Proof.
  unfold shortGitCommandSlow.
  destruct (String.eqb subcommand "archive");
    [|destruct (String.eqb subcommand "blame" || String.eqb subcommand "ls-tree"
                || String.eqb subcommand "log" || String.eqb subcommand "show");
      [|destruct (String.eqb subcommand "fetch")]];
    cbv; split; discriminate.
Qed.

(** X9. [trace] logs the warning "Long exec request" exactly when the
    command ran longer than the threshold of its subcommand, so never for a
    command that took at most 2.5 seconds and always for one that took more
    than a minute.  It sends the honey event exactly when honey is enabled: a
    slow command with honey disabled is logged, not sent.  It never counts
    or logs a high memory usage.  It takes the running gauge of the
    subcommand down by one and leaves the other gauges alone. *)
Theorem trace_reports (e : env) (rc : cmdReader) (w : list event) :
  exists evs,
    snd (trace e rc w) = w ++ evs
    /\ countEv isSlowWarning evs
       = (if sinceStart e >? shortGitCommandSlow (rc_subcommand rc)
          then 1 else 0)%nat
    /\ (sinceStart e <= 2500 * Millisecond -> countEv isSlowWarning evs = 0%nat)
    /\ (sinceStart e > 1 * Minute -> countEv isSlowWarning evs = 1%nat)
    /\ filter isHoneySend evs
       = (if honeyEnabled e then [EvHoneySend (honeyEventOf e rc)] else [])
    /\ countEv isHighMemory evs = 0%nat
    /\ (forall s, execRunning s evs
                  = if String.eqb (rc_subcommand rc) s then -1 else 0).
Proof.
  rewrite trace_events. cbn [snd]. eexists. split; [reflexivity|].
  pose proof (shortGitCommandSlow_bounds (rc_subcommand rc)) as Hb.
  assert (Hslow : countEv isSlowWarning
                    ([EvExecRunningDec (rc_subcommand rc);
                      EvExecDuration (rc_subcommand rc) (sinceStart e)]
                     ++ sampledEvents e rc
                     ++ [EvTraceAttrs (ExitCode (proc e))
                           (Z.quot (sinceStart e) Millisecond)
                           (Z.quot (rssToByteSize (GOOS e) (Maxrss (proc e)))
                                   bytesize.KiB)])
                  = (if sinceStart e >? shortGitCommandSlow (rc_subcommand rc)
                     then 1 else 0)%nat).
  { unfold countEv, sampledEvents.
    destruct (honeyEnabled e),
             (sinceStart e >? shortGitCommandSlow (rc_subcommand rc));
      reflexivity. }
  rewrite Hslow. repeat split.
  - intros Hfast.
    destruct (Z.gtb_spec (sinceStart e) (shortGitCommandSlow (rc_subcommand rc)));
      [lia|reflexivity].
  - intros Hlong.
    destruct (Z.gtb_spec (sinceStart e) (shortGitCommandSlow (rc_subcommand rc)));
      [reflexivity|lia].
  - unfold sampledEvents.
    destruct (honeyEnabled e),
             (sinceStart e >? shortGitCommandSlow (rc_subcommand rc));
      reflexivity.
  - unfold countEv, sampledEvents.
    destruct (honeyEnabled e),
             (sinceStart e >? shortGitCommandSlow (rc_subcommand rc));
      reflexivity.
  - intros s. unfold execRunning, countEv, sampledEvents.
    cbn [app filter isRunningInc isRunningDec].
    destruct (String.eqb (rc_subcommand rc) s), (honeyEnabled e),
             (sinceStart e >? shortGitCommandSlow (rc_subcommand rc));
      reflexivity.
Qed.

(** X10. The peak memory figure that [trace] attaches to the span, in
    kibibytes, is the raw [Maxrss] itself on every platform other than
    darwin (values below 2^53 in size), where the raw value is already in
    kibibytes; on darwin it is the raw byte count divided by 1024, rounded
    towards zero. *)
Theorem trace_maxrss_in_kib (e : env) (rc : cmdReader) (w : list event) :
  - 2 ^ 53 < Maxrss (proc e) < 2 ^ 53 ->
  In (EvTraceAttrs (ExitCode (proc e)) (Z.quot (sinceStart e) 1000000)
        (if String.eqb (GOOS e) "darwin"
         then Z.quot (Maxrss (proc e)) 1024
         else Maxrss (proc e)))
     (snd (trace e rc w)).
Proof.
  intros Hrange. rewrite trace_events. cbn [snd].
  rewrite !in_app_iff. right. right. right. left.
  unfold rssToByteSize, bytesize.B, bytesize.KiB.
  destruct (String.eqb (GOOS e) "darwin").
  - rewrite Z.mul_1_r, wrap64_small by lia. reflexivity.
  - rewrite wrap64_small by lia. rewrite Z.quot_mul by lia. reflexivity.
Qed.

Lemma trace_maxrss_in_kib_witness :
  let e := sampleEnv (sampleProcess "" None 0) None in
  - 2 ^ 53 < Maxrss (proc e) < 2 ^ 53
  /\ In (EvTraceAttrs 0 3 2048) (snd (trace e sampleReader [])).
Proof.
  intros e.
  assert (Hrange : - 2 ^ 53 < Maxrss (proc e) < 2 ^ 53)
    by (split; vm_compute; reflexivity).
  split; [exact Hrange|].
  exact (trace_maxrss_in_kib e sampleReader [] Hrange).
Defined.

(** ** More on the corruption heuristic *)

Lemma prefix_append_right (l s t : string) :
  String.prefix l s = true -> String.prefix l (s ++ t) = true.
Proof.
  revert s. induction l as [|c l IH]; intros s H.
  - now destruct (s ++ t)%string.
  - destruct s as [|c' s]; [discriminate|]. cbn in *.
    destruct (ascii_dec c c'); [now apply IH|discriminate].
Qed.

Lemma string_app_assoc (a b c : string) :
  ((a ++ b) ++ c = a ++ (b ++ c))%string.
Proof. induction a as [|x a IH]; cbn; [reflexivity|now rewrite IH]. Qed.

Lemma before_append (a b : string) :
  forall prev, before prev (a ++ b) = before (before prev a) b.
Proof. induction a as [|x a IH]; intros prev; cbn; [reflexivity|apply IH]. Qed.

Lemma atLineStart_after_newline (pre : string) :
  atLineStart (before None pre) = true ->
  atLineStart (before (Some newline) pre) = true.
Proof.
  destruct pre as [|c pre]; cbn; [reflexivity|trivial].
Qed.

Lemma corruption_by_line (stderr : string) :
  stdErrIndicatesCorruption stderr = true <->
  exists pre post,
    stderr = (pre ++ post)%string
    /\ atLineStart (before None pre) = true
    /\ (String.prefix "error: Could not read " post
        || String.prefix "error: packfile " post
        || String.prefix
             "fatal: commit-graph requires overflow generation data but has none"
             post) = true.
Proof.
  unfold stdErrIndicatesCorruption, MatchString.
  rewrite orb_true_iff, !search_split. split.
  - intros [(pre & post & Hs & H)|(pre & post & Hs & H)];
      exists pre, post; (split; [exact Hs|]).
    + rewrite matchesAt_objectOrPackFile in H.
      apply andb_true_iff in H as [H1 H2]. split; [exact H1|].
      now rewrite H2.
    + rewrite matchesAt_commitGraph in H.
      apply andb_true_iff in H as [H1 H2]. split; [exact H1|].
      rewrite H2. now rewrite orb_true_r.
  - intros (pre & post & Hs & H1 & H2).
    apply orb_true_iff in H2 as [H2|H2].
    + left. exists pre, post. split; [exact Hs|].
      rewrite matchesAt_objectOrPackFile, H1, H2. reflexivity.
    + right. exists pre, post. split; [exact Hs|].
      rewrite matchesAt_commitGraph, H1, H2. reflexivity.
Qed.

(** X11. Once a text is classified as corrupt it stays so when more output
    follows it and when whole lines are put in front of it: the heuristic
    looks for a matching line anywhere in the text. *)
Theorem corruption_survives_more_output (stderr : string) :
  stdErrIndicatesCorruption stderr = true ->
  (forall more, stdErrIndicatesCorruption (stderr ++ more) = true)
  /\ (forall line,
         stdErrIndicatesCorruption (line ++ String newline stderr) = true).
Proof.
  intros H. apply corruption_by_line in H.
  destruct H as (pre & post & -> & Hline & Hpre). split.
  - intros more. apply corruption_by_line.
    exists pre, (post ++ more)%string.
    split; [apply string_app_assoc|]. split; [exact Hline|].
    apply orb_true_iff in Hpre as [Hpre|Hpre];
      [apply orb_true_iff in Hpre as [Hpre|Hpre]|];
      rewrite (prefix_append_right _ _ more Hpre);
      rewrite ?orb_true_r; reflexivity.
  - intros line. apply corruption_by_line.
    exists (line ++ String newline pre)%string, post.
    split; [now rewrite string_app_assoc|].
    split; [|exact Hpre].
    rewrite before_append. cbn [before].
    now apply atLineStart_after_newline.
Qed.

Lemma corruption_survives_more_output_witness :
  stdErrIndicatesCorruption "error: packfile pack-1.pack does not match index"
  = true
  /\ stdErrIndicatesCorruption
       ("warning: redirecting to https://example.com/"
        ++ String newline
             "error: packfile pack-1.pack does not match index") = true.
Proof.
  assert (H : stdErrIndicatesCorruption
                "error: packfile pack-1.pack does not match index" = true)
    by reflexivity.
  split; [exact H|].
  exact (proj2 (corruption_survives_more_output _ H)
               "warning: redirecting to https://example.com/"%string).
Defined.

(** X12. On a text of a single line (no newline in it) the heuristic
    answers true exactly when the text begins with "error: Could not read ",
    with "error: packfile " or with the commit-graph overflow message: a
    signature that stands further into the line does not count. *)
Theorem corruption_on_one_line (stderr : string) :
  (forall pre post, stderr <> (pre ++ String newline post)%string) ->
  stdErrIndicatesCorruption stderr
  = String.prefix "error: Could not read " stderr
    || String.prefix "error: packfile " stderr
    || String.prefix
         "fatal: commit-graph requires overflow generation data but has none"
         stderr.
Proof.
  intros Hone.
  match goal with |- _ = ?rhs => destruct rhs eqn:Hrhs end.
  - apply corruption_by_line. exists EmptyString, stderr. auto.
  - destruct (stdErrIndicatesCorruption stderr) eqn:Hc; [|reflexivity].
    apply corruption_by_line in Hc.
    destruct Hc as (pre & post & Hs & Hline & Hpre).
    destruct (before_cases pre None) as [[-> _]|(pre' & c & -> & Hb)].
    + cbn in Hs. subst post. congruence.
    + rewrite Hb in Hline. cbn in Hline. apply Ascii.eqb_eq in Hline. subst c.
      exfalso. apply (Hone pre' post). rewrite Hs.
      rewrite string_app_assoc. reflexivity.
Qed.

Lemma corruption_on_one_line_witness :
  (forall pre post,
      "warning: error: Could not read abc123"%string
      <> (pre ++ String newline post)%string)
  /\ stdErrIndicatesCorruption "warning: error: Could not read abc123" = false.
Proof.
  assert (Hone : forall pre post,
             "warning: error: Could not read abc123"%string
             <> (pre ++ String newline post)%string).
  { intros pre post H.
    repeat (destruct pre as [|? pre]; cbn in H; [discriminate|];
            injection H as _ H).
    destruct pre; discriminate. }
  split; [exact Hone|].
  exact (corruption_on_one_line _ Hone).
Defined.

(** ** More on the command builder and the options *)

Lemma token_counts (args : list Argument) :
  List.length (configTokens args) = (2 * configCount args)%nat
  /\ (forallb accepted args = true ->
      List.length (otherTokens args) + configCount args = List.length args)%nat.
Proof.
  unfold configCount. induction args as [|a args [IHc IHo]]; [split; reflexivity|].
  cbn [configTokens otherTokens flat_map forallb filter].
  fold (configTokens args). fold (otherTokens args).
  rewrite !length_app.
  destruct a as [s|s|f v|k v|ty]; cbn [accepted andb List.length];
    (split; [lia|]); intros Hacc;
    try (apply andb_true_iff in Hacc as [_ Hacc]);
    try discriminate; specialize (IHo Hacc); lia.
Qed.

(** X13. The builder never looks at the subcommand: whether it fails, and
    with which error, depends on the arguments alone, and with another
    subcommand it builds the same list with that one token replaced.  In a
    built list the subcommand stands at index 2k, where k is the number of
    ConfigArguments, and the list has one token for each other argument
    after it. *)
Theorem subcommand_is_not_validated (sub1 sub2 : string)
    (args : list Argument) :
  (forall err, argsFromArguments sub1 args = inl err <->
               argsFromArguments sub2 args = inl err)
  /\ (forall out,
         argsFromArguments sub1 args = inr out ->
         nth_error out (2 * configCount args) = Some sub1
         /\ List.length out = (List.length args + configCount args + 1)%nat
         /\ argsFromArguments sub2 args
            = inr (firstn (2 * configCount args) out ++ [sub2]
                     ++ skipn (2 * configCount args + 1) out)).
Proof.
  unfold argsFromArguments.
  destruct (argsLoop args [] []) as [err|[cf fl]] eqn:Hloop.
  - split; [intros err'; split; trivial|discriminate].
  - split; [intros err'; split; discriminate|].
    intros out Hout. inversion Hout; subst out. clear Hout.
    pose proof (argsLoop_inr _ _ _ _ Hloop) as Hacc.
    rewrite (argsLoop_accepted args [] [] Hacc) in Hloop.
    inversion Hloop; subst cf fl. cbn [app].
    destruct (token_counts args) as (Hc & Ho). specialize (Ho Hacc).
    rewrite <- Hc. repeat split.
    + rewrite nth_error_app2, Nat.sub_diag by lia. reflexivity.
    + rewrite length_app. cbn [List.length]. lia.
    + rewrite firstn_app, firstn_all, Nat.sub_diag. cbn [firstn].
      rewrite app_nil_r.
      replace (List.length (configTokens args) + 1)%nat
        with (List.length (configTokens args ++ [sub1]))
        by (rewrite length_app; reflexivity).
      change (configTokens args ++ sub1 :: otherTokens args)
        with (configTokens args ++ [sub1] ++ otherTokens args).
      rewrite app_assoc, skipn_app, skipn_all, Nat.sub_diag. reflexivity.
Qed.

(** X14. The arguments of a command are those of the last [WithArguments]
    among its options: a later [WithArguments] replaces the arguments of an
    earlier one instead of adding to them, and [WithEnv] and [WithStdin]
    after it leave them as they are.  In the same way the environment is
    that of the last [WithEnv], whatever [WithArguments] and [WithStdin] come
    after it, and the stdin that of the last [WithStdin]. *)
Theorem last_WithArguments_wins (fns rest : list CommandOptionFunc) :
  (forall args,
      Forall (fun f => (exists v, f = WithEnv v) \/ (exists s, f = WithStdin s))
             rest ->
      arguments (optsFromFuncs (fns ++ WithArguments args :: rest)) = args)
  /\ (forall env,
         Forall (fun f => (exists a, f = WithArguments a)
                          \/ (exists s, f = WithStdin s)) rest ->
         opt_env (optsFromFuncs (fns ++ WithEnv env :: rest)) = env)
  /\ (forall stdin,
         Forall (fun f => (exists a, f = WithArguments a)
                          \/ (exists v, f = WithEnv v)) rest ->
         opt_stdin (optsFromFuncs (fns ++ WithStdin stdin :: rest))
         = Some stdin).
Proof.
  assert (Hfold : forall (P : commandOpts -> Prop) fs,
             Forall (fun f => forall o, P o -> P (f o)) fs ->
             forall o, P o ->
                       P (fold_left (fun opts optFn => optFn opts) fs o)).
  { intros P fs Hfs. induction Hfs as [|f fs Hf _ IH]; intros o Ho;
      [exact Ho|]. cbn [fold_left]. apply IH, Hf, Ho. }
  unfold optsFromFuncs. split; [|split].
  - intros args Hrest. rewrite fold_left_app. cbn [fold_left].
    apply (Hfold (fun o => arguments o = args)); [|reflexivity].
    eapply Forall_impl; [|exact Hrest].
    intros f [[v ->]|[s ->]] o Ho; exact Ho.
  - intros env Hrest. rewrite fold_left_app. cbn [fold_left].
    apply (Hfold (fun o => opt_env o = env)); [|reflexivity].
    eapply Forall_impl; [|exact Hrest].
    intros f [[v ->]|[s ->]] o Ho; exact Ho.
  - intros stdin Hrest. rewrite fold_left_app. cbn [fold_left].
    apply (Hfold (fun o => opt_stdin o = Some stdin)); [|reflexivity].
    eapply Forall_impl; [|exact Hrest].
    intros f [[v ->]|[s ->]] o Ho; exact Ho.
Qed.

Lemma last_WithArguments_wins_witness :
  arguments (optsFromFuncs [WithArguments [FlagArgument "--all"];
                            WithArguments [SpecSafeValueArgument "HEAD"];
                            WithEnv ["GIT_TERMINAL_PROMPT=0"%string]])
  = [SpecSafeValueArgument "HEAD"]
  /\ opt_env (optsFromFuncs [WithEnv ["GIT_TRACE=1"%string];
                             WithEnv ["GIT_TERMINAL_PROMPT=0"%string];
                             WithArguments [SpecSafeValueArgument "HEAD"]])
     = ["GIT_TERMINAL_PROMPT=0"%string].
Proof.
  split.
  - apply (proj1 (last_WithArguments_wins
                    [WithArguments [FlagArgument "--all"]]
                    [WithEnv ["GIT_TERMINAL_PROMPT=0"%string]])).
    constructor; [left; eexists; reflexivity|constructor].
  - apply (proj1 (proj2 (last_WithArguments_wins
                           [WithEnv ["GIT_TRACE=1"%string]]
                           [WithArguments [SpecSafeValueArgument "HEAD"]]))).
    constructor; [left; eexists; reflexivity|constructor].
Defined.

(** ** The limit writer over any writer *)

Lemma limitWriter_Write_step {X : Type} `{Writer X} (l : limitWriter.t X)
    (p : list byte) :
  countsWithinInput X ->
  0 <= limitWriter.N l ->
  let r := limitWriter.Write l p in
  0 <= limitWriter.N (snd r) <= limitWriter.N l
  /\ 0 <= fst (fst r) <= len p
  /\ (limitWriter.N l = 0 -> r = ((len p, None), l)).
Proof.
  intros Hcontract Hn. destruct l as [x n]. cbn [limitWriter.N] in Hn.
  unfold limitWriter.Write. cbn [limitWriter.W limitWriter.N].
  assert (Hlen : 0 <= len p) by (unfold len; lia).
  destruct (Z.leb_spec n 0) as [Hz|Hpos].
  - cbn [fst snd limitWriter.N]. repeat split; lia.
  - set (q := if len p >? n then firstn (Z.to_nat n) p else p).
    assert (Hq : len q <= n /\ len q <= len p).
    { subst q. destruct (Z.gtb_spec (len p) n).
      - rewrite len_firstn by lia. lia.
      - lia. }
    pose proof (Hcontract x q) as Hc.
    destruct (Write x q) as [[k err] x']. cbn [fst snd] in *.
    cbn [limitWriter.N]. repeat split; try lia.
    + destruct (n - k <=? 0); lia.
    + destruct (n - k <=? 0); lia.
Qed.

(** X15. Whatever writer the limit writer wraps, as long as that writer
    reports byte counts between 0 and the length of what it was given: over
    any sequence of writes the remaining budget never grows and never goes
    below zero, every write reports a count between 0 and the length of its
    input, and once the budget is zero the wrapped writer is not touched
    again while every write still reports its full length and no error. *)
Theorem limitWriter_budget {X : Type} `{Writer X} (ps : list (list byte)) :
  countsWithinInput X ->
  forall l : limitWriter.t X,
    0 <= limitWriter.N l ->
    let r := writeAll l ps in
    0 <= limitWriter.N (snd r) <= limitWriter.N l
    /\ Forall2 (fun p ret => 0 <= fst ret <= len p) ps (fst r)
    /\ (limitWriter.N l = 0 ->
        snd r = l /\ fst r = map (fun p => (len p, None)) ps).
Proof.
  intros Hcontract. induction ps as [|p ps IH]; intros l Hn.
  - cbn. repeat split; try lia; constructor.
  - cbn [writeAll].
    change (Write l p) with (limitWriter.Write l p).
    destruct (limitWriter_Write_step l p Hcontract Hn) as (Hn1 & Hk & Hzero).
    destruct (limitWriter.Write l p) as [ret l1]. cbn [fst snd] in *.
    destruct (IH l1 (proj1 Hn1)) as (Hn2 & Hrets & Hzero').
    destruct (writeAll l1 ps) as [rets l2]. cbn [fst snd] in *.
    split; [lia|]. split; [constructor; assumption|].
    intros Hz. specialize (Hzero Hz). inversion Hzero; subst ret l1.
    destruct (Hzero' Hz) as (-> & ->). split; reflexivity.
Qed.

Lemma limitWriter_budget_witness :
  countsWithinInput Buffer
  /\ 0 <= limitWriter.N stderrBuffer
  /\ 0 <= limitWriter.N
            (snd (writeAll stderrBuffer
                    [list_byte_of_string "fatal: unknown flag";
                     list_byte_of_string "usage: git log"]))
     <= 1024.
Proof.
  assert (Hc : countsWithinInput Buffer).
  { intros x p. cbn. unfold len. lia. }
  assert (Hn : 0 <= limitWriter.N stderrBuffer) by (cbv; discriminate).
  split; [exact Hc|]. split; [exact Hn|].
  exact (proj1 (limitWriter_budget
                  [list_byte_of_string "fatal: unknown flag";
                   list_byte_of_string "usage: git log"]
                  Hc stderrBuffer Hn)).
Defined.
